(** * A shallow embedding of cutvids.py

    The model follows [src/cutvids.py]: the time parser [parse_seconds],
    the tokenizer [parse_tokens], the task-file parser
    [parse_video_tasks] and the command generator [cutvid_commands],
    together with the way [main] consumes that generator. *)

From Stdlib Require Import String Ascii List ZArith Bool Lia DecimalString.
Import ListNotations.
Open Scope string_scope.
Set Warnings "-register-all".

(** ** Python string helpers *)

Definition nl : ascii := "010"%char.

(** Python's [str.isspace] on ASCII characters: 9-13, 28-31 and the
    space.  Strings are byte strings here; Python also strips non-ASCII
    whitespace (U+0085, U+00A0, ...), which is not modelled, so [strip]
    below is exact on ASCII text. *)
Definition is_space (c : ascii) : bool :=
  let n := nat_of_ascii c in
  (Nat.leb 9 n && Nat.leb n 13) || (Nat.leb 28 n && Nat.leb n 32).

Fixpoint lstrip (s : string) : string :=
  match s with
  | String c r => if is_space c then lstrip r else s
  | EmptyString => EmptyString
  end.

Definition rev_string (s : string) : string :=
  string_of_list_ascii (rev (list_ascii_of_string s)).

(** [str.strip()] *)
Definition strip (s : string) : string :=
  rev_string (lstrip (rev_string (lstrip s))).

(** [str.startswith(p)] *)
Definition startswith (p s : string) : bool := String.prefix p s.

(** [str.endswith(p)] *)
Definition endswith (p s : string) : bool :=
  String.prefix (rev_string p) (rev_string s).

(** [str.partition(sep)] for a one-character separator. *)
Fixpoint partition (sep : ascii) (s : string) : string * string :=
  match s with
  | EmptyString => (EmptyString, EmptyString)
  | String c r =>
      if Ascii.eqb c sep then (EmptyString, r)
      else let '(a, b) := partition sep r in (String c a, b)
  end.

(** [str.split(sep)] for a one-character separator. *)
Fixpoint split_on (sep : ascii) (s : string) : list string :=
  match s with
  | EmptyString => [EmptyString]
  | String c r =>
      if Ascii.eqb c sep then EmptyString :: split_on sep r
      else match split_on sep r with
           | w :: ws => String c w :: ws
           | [] => [String c EmptyString]
           end
  end.

Fixpoint contains_char (c : ascii) (s : string) : bool :=
  match s with
  | EmptyString => false
  | String d r => Ascii.eqb c d || contains_char c r
  end.

(** ['\n'.join(xs)] *)
Fixpoint join_lines (xs : list string) : string :=
  match xs with
  | [] => ""
  | [x] => x
  | x :: r => x ++ String nl "" ++ join_lines r
  end.

(** ['%d' % n] *)
Definition fmt_d (n : Z) : string := NilZero.string_of_int (Z.to_int n).

(** [os.path.join(a, b)] for two components. *)
Definition path_join (a b : string) : string :=
  if startswith "/" b then b
  else if (a =? "") || endswith "/" a then a ++ b
  else a ++ "/" ++ b.

(** [os.path.splitext(p)[1]]: the last dot of the last component, unless
    that component consists of dots up to it. *)
Fixpoint last_component (acc : list ascii) (l : list ascii) : list ascii :=
  match l with
  | [] => rev acc
  | c :: r => if Ascii.eqb c "/" then last_component [] r
              else last_component (c :: acc) r
  end.

Definition splitext_ext (p : string) : string :=
  let b := last_component [] (list_ascii_of_string p) in
  (* [rb] is the basename reversed: the extension is the part up to the
     first dot of [rb] *)
  let fix go (rb ext : list ascii) : list ascii :=
    match rb with
    | [] => []
    | c :: r =>
        if Ascii.eqb c "." then
          if existsb (fun d => negb (Ascii.eqb d ".")) r then c :: ext else []
        else go r (c :: ext)
    end in
  string_of_list_ascii (go (rev b) []).

(** ** Exceptions, results and JSON values *)

Inductive exn :=
| AssertionError
| AttributeError
| IndexError
| KeyError
| TypeError
| ValueError
| RemoveError (path : string).   (* [os.remove] failing with errno <> ENOENT *)

Inductive res (A : Type) :=
| ROk (a : A)
| RErr (e : exn)
| RDiverge.
Arguments ROk {A} a.
Arguments RErr {A} e.
Arguments RDiverge {A}.

Definition rbind {A B} (m : res A) (k : A -> res B) : res B :=
  match m with
  | ROk a => k a
  | RErr e => RErr e
  | RDiverge => RDiverge
  end.

Declare Scope res_scope.
Notation "x <- m ;; k" := (rbind m (fun x => k))
  (at level 61, m at next level, right associativity) : res_scope.

(** Values produced by [json.loads] (numbers restricted to integers). *)
Inductive json :=
| JNull
| JBool (b : bool)
| JNum (n : Z)
| JStr (s : string)
| JArr (l : list json)
| JObj (kvs : list (string * json)).

(** Python truthiness of a JSON value. *)
Definition json_truthy (v : json) : bool :=
  match v with
  | JNull => false
  | JBool b => b
  | JNum n => negb (n =? 0)%Z
  | JStr s => negb (s =? "")
  | JArr l => negb (length l =? 0)%nat
  | JObj kvs => negb (length kvs =? 0)%nat
  end.

(** ['%s' % v]: Python's [str] for [None], booleans, integers and strings.
    Lists and dictionaries are only approximated (Python would give the
    [repr] of their elements). *)
Fixpoint json_str (v : json) : string :=
  match v with
  | JNull => "None"
  | JBool b => if b then "True" else "False"
  | JNum n => fmt_d n
  | JStr s => s
  | JArr l =>
      "[" ++ (fix go l := match l with
                         | [] => ""
                         | [x] => json_str x
                         | x :: r => json_str x ++ ", " ++ go r
                         end) l ++ "]"
  | JObj _ => "{...}"
  end.

(** [dict.get(k, default)]; [json.loads] keeps the last duplicate key. *)
Definition dict_get (kvs : list (string * json)) (k : string) (d : json) : json :=
  fold_left (fun acc '(k', v) => if k' =? k then v else acc) kvs d.

(** ** Time parser: [parse_seconds] *)

Definition is_digit (c : ascii) : bool :=
  let n := nat_of_ascii c in Nat.leb 48 n && Nat.leb n 57.

(** Greedy [[0-9]+] prefix. *)
Fixpoint span_digits (l : list ascii) : list ascii * list ascii :=
  match l with
  | c :: r => if is_digit c then let '(d, r') := span_digits r in (c :: d, r')
              else ([], l)
  | [] => ([], [])
  end.

(** [$]: end of string, or just before a final newline. *)
Definition at_end (l : list ascii) : bool :=
  match l with
  | [] => true
  | [c] => Ascii.eqb c nl
  | _ => false
  end.

Definition nonempty {A} (l : list A) : bool :=
  match l with [] => false | _ => true end.

(** The regex
    [(?:(?:(?P<hours>[0-9]+):)?(?P<minutes>[0-9]+):)?(?P<secs>[0-9]+)$]
    with [re.match].  The optional groups are tried first (greedy [?]),
    the hours group before the minutes group; a digit run is always
    followed by a non-digit in a successful match, so trying only the
    longest digit run loses no match. *)
Definition match_secs (l : list ascii) : option (list ascii) :=
  let '(d, r) := span_digits l in
  if nonempty d && at_end r then Some d else None.

Definition match_field (l : list ascii) : option (list ascii * list ascii) :=
  let '(d, r) := span_digits l in
  match r with
  | c :: r' => if nonempty d && Ascii.eqb c ":" then Some (d, r') else None
  | [] => None
  end.

Definition re_time (l : list ascii)
  : option (option (list ascii) * option (list ascii) * list ascii) :=
  let with_hours :=
    match match_field l with
    | Some (h, r) =>
        match match_field r with
        | Some (m, r') =>
            match match_secs r' with
            | Some s => Some (Some h, Some m, s)
            | None => None
            end
        | None => None
        end
    | None => None
    end in
  match with_hours with
  | Some x => Some x
  | None =>
      match match_field l with
      | Some (m, r) =>
          match match_secs r with
          | Some s => Some (None, Some m, s)
          | None =>
              match match_secs l with
              | Some s => Some (None, None, s)
              | None => None
              end
          end
      | None =>
          match match_secs l with
          | Some s => Some (None, None, s)
          | None => None
          end
      end
  end.

(** [int(digits)] *)
Definition py_int (d : list ascii) : Z :=
  fold_left (fun acc c => acc * 10 + (Z.of_nat (nat_of_ascii c) - 48))%Z d 0%Z.

Definition parse_seconds (token : string) : res (option Z) :=
  if token =? "-" then ROk None
  else match re_time (list_ascii_of_string token) with
       | None => RErr AttributeError      (* [m.group] on [None] *)
       | Some (hours, minutes, secs) =>
           let res0 := py_int secs in
           let res1 := match minutes with
                       | Some m => if nonempty m then res0 + 60 * py_int m else res0
                       | None => res0
                       end%Z in
           let res2 := match hours with
                       | Some h => if nonempty h then res1 + 60 * 60 * py_int h else res1
                       | None => res1
                       end%Z in
           ROk (Some res2)
       end.

Example parse_seconds_ex1 : parse_seconds "123" = ROk (Some 123%Z).
Proof. reflexivity. Qed.
Example parse_seconds_ex2 : parse_seconds "1:01:40" = ROk (Some 3700%Z).
Proof. reflexivity. Qed.
Example parse_seconds_ex3 : parse_seconds "1:2:3:4" = RErr AttributeError.
Proof. reflexivity. Qed.
Example parse_seconds_ex4 : parse_seconds "2:05" = ROk (Some 125%Z).
Proof. reflexivity. Qed.
Example splitext_ex : splitext_ext "a/b.c/.x.mp4" = ".mp4" /\ splitext_ext ".mp4" = "".
Proof. split; reflexivity. Qed.
Example strip_ex : strip "  a b
" = "a b".
Proof. reflexivity. Qed.

(** ** Tokenizer: [parse_tokens]

    The generator is a [while line:] loop.  [parse_tokens_fuel] runs at
    most [fuel] iterations of it; [PTOutOfFuel] means the loop was still
    running when the fuel ran out. *)

Definition dquote : ascii := "034"%char.
Definition squote : ascii := "039"%char.

Inductive pt_outcome :=
| PTOk
| PTErr (e : exn)
| PTOutOfFuel.

Fixpoint parse_tokens_fuel (fuel : nat) (line : string) : list string * pt_outcome :=
  match fuel with
  | O => ([], PTOutOfFuel)
  | S f =>
      if line =? "" then ([], PTOk)                       (* while line: *)
      else
        let line := strip line in
        if startswith "#" line then parse_tokens_fuel f line   (* continue *)
        else
          let yield_then tok rest :=
            let '(ts, o) := parse_tokens_fuel f rest in (tok :: ts, o) in
          match line with
          | String c r =>
              if Ascii.eqb c dquote then
                let '(token, rest) := partition dquote r in yield_then token rest
              else if Ascii.eqb c squote then
                let '(token, rest) := partition squote r in yield_then token rest
              else
                let '(token, rest) := partition " " line in
                if contains_char dquote token then ([], PTErr AssertionError)
                else yield_then token rest
          | EmptyString =>
              (* [''.partition(' ')] yields the empty token *)
              yield_then EmptyString EmptyString
          end
  end.

(** Every iteration that does not hit the [#] branch shortens the line,
    so [String.length line + 1] iterations reach the end of any loop that
    terminates at all. *)
Definition parse_tokens (line : string) : list string * pt_outcome :=
  parse_tokens_fuel (S (String.length line)) line.

Example parse_tokens_ex1 :
  parse_tokens "a.mp4+b.mp4 'my video' 1:00 -
" = (["a.mp4+b.mp4"; "my video"; "1:00"; "-"], PTOk).
Proof. reflexivity. Qed.

(** ** Task parser: [parse_video_tasks] *)

Record Segment := mkSegment { start : option Z; end_ : option Z }.

Record VideoTask := mkVideoTask {
  input_files : list string;
  output_file : string;
  description : json;
  segments : list Segment;
  boost_volume : json;
  privacy : json;
  upload : json }.

(** Truthiness of an [int] or [None] bound. *)
Definition truthy_time (t : option Z) : bool :=
  match t with
  | Some z => negb (z =? 0)%Z
  | None => false
  end.

(** [re.search(r'\.(?:mp4|webm|ogv)$', output_file)] *)
Definition has_video_ext (s : string) : bool :=
  existsb (fun e => endswith e s || endswith (e ++ String nl "") s)
          [".mp4"; ".webm"; ".ogv"].

(** [parse_seconds] applied to a JSON value: [token == '-'] is false and
    [re.match] raises on a non-string. *)
Definition parse_seconds_json (v : json) : res (option Z) :=
  match v with
  | JStr s => parse_seconds s
  | _ => RErr TypeError
  end.

(** [s['start']] / [s['end']] on an element of the [segments] list. *)
Definition subscript (v : json) (k : string) : res json :=
  match v with
  | JObj kvs =>
      match find (fun '(k', _) => k' =? k) (rev kvs) with
      | Some (_, x) => ROk x
      | None => RErr KeyError
      end
  | _ => RErr TypeError
  end.

Open Scope res_scope.

Definition parse_segment_json (s : json) : res Segment :=
  sv <- subscript s "start" ;;
  st <- parse_seconds_json sv ;;
  ev <- subscript s "end" ;;
  en <- parse_seconds_json ev ;;
  ROk (mkSegment st en).

Fixpoint map_res {A B} (f : A -> res B) (l : list A) : res (list B) :=
  match l with
  | [] => ROk []
  | x :: r => y <- f x ;; ys <- map_res f r ;; ROk (y :: ys)
  end.

(** [[... for s in segments_in]]: only a list is iterated element-wise;
    iterating any other truthy JSON value yields no dictionary. *)
Definition parse_segments_in (v : json) : res (list Segment) :=
  match v with
  | JArr l => map_res parse_segment_json l
  | _ => RErr TypeError
  end.

Definition assert (b : bool) : res unit :=
  if b then ROk tt else RErr AssertionError.

Section TaskParser.
(** [json.loads]: [None] stands for the [ValueError] it raises. *)
Variable json_loads : string -> option json.

Definition parse_task_line (line : string) : res VideoTask :=
  match parse_tokens line with
  | (_, PTOutOfFuel) => RDiverge
  | (_, PTErr e) => RErr e
  | (tokens, PTOk) =>
      let n := length tokens in
      _ <- assert (Nat.leb 2 n && Nat.leb n 5) ;;
      let input_files := split_on "+" (nth 0 tokens "") in
      let output_file0 := nth 1 tokens "" in
      let output_file :=
        if has_video_ext output_file0 then output_file0
        else output_file0 ++ ".mp4" in
      st <- (if Nat.ltb n 3 then ROk None else parse_seconds (nth 2 tokens "")) ;;
      en <- (if Nat.ltb n 4 then ROk None else parse_seconds (nth 3 tokens "")) ;;
      extra_data <- (if Nat.leb 5 n then
                       match json_loads (nth 4 tokens "") with
                       | Some v => ROk v
                       | None => RErr ValueError
                       end
                     else ROk (JObj [])) ;;
      kvs <- (match extra_data with
              | JObj kvs => ROk kvs
              | _ => RErr AttributeError           (* [.get] on a non-dict *)
              end) ;;
      let privacy := dict_get kvs "privacy" JNull in
      let description := dict_get kvs "description" JNull in
      let segments_in := dict_get kvs "segments" JNull in
      let upload := dict_get kvs "upload" (JBool true) in
      segments <- (if json_truthy segments_in then
                     _ <- assert (negb (truthy_time st)) ;;
                     _ <- assert (negb (truthy_time en)) ;;
                     parse_segments_in segments_in
                   else ROk [mkSegment st en]) ;;
      ROk (mkVideoTask input_files output_file description segments
             (dict_get kvs "boost_volume" JNull) privacy upload)
  end.

Inductive parse_outcome :=
| POk
| PErr (e : exn)
| PDiverge.

(** The generator over the lines of the file: the tasks it yields, and how
    it ends. *)
Fixpoint parse_video_tasks (lines : list string) : list VideoTask * parse_outcome :=
  match lines with
  | [] => ([], POk)
  | line :: rest =>
      if (strip line =? "") || startswith "#" line then parse_video_tasks rest
      else match parse_task_line line with
           | ROk t => let '(ts, o) := parse_video_tasks rest in (t :: ts, o)
           | RErr e => ([], PErr e)
           | RDiverge => ([], PDiverge)
           end
  end.
End TaskParser.
Close Scope res_scope.

(** ** Command generator: [cutvid_commands]

    The generator is written in a small writer-and-exception monad [G]:
    a computation records, in order, the paths it appends to [tmpfiles],
    the files Python itself writes, and the commands it yields, and ends
    with a value or a raised exception. *)

Definition cmd := list string.

Inductive action :=
| ARegister (p : string)            (* tmpfiles.append(p) *)
| AWrite (p : string) (s : string)  (* Python creates or writes file p *)
| AYield (c : cmd)                  (* yield c *)
| AFinally                          (* the finally clause runs here *)
| ARaise (e : exn).                 (* the exception leaves the generator *)

Definition G (A : Type) : Type := (list action * (exn + A))%type.

Definition gret {A} (a : A) : G A := ([], inr a).
Definition graise {A} (e : exn) : G A := ([], inl e).
Definition gbind {A B} (m : G A) (k : A -> G B) : G B :=
  match m with
  | (acts, inl e) => (acts, inl e)
  | (acts, inr a) => let '(acts', r) := k a in ((acts ++ acts')%list, r)
  end.
Definition yield (c : cmd) : G unit := ([AYield c], inr tt).
Definition register (p : string) : G unit := ([ARegister p], inr tt).
Definition write (p s : string) : G unit := ([AWrite p s], inr tt).
Definition gassert (b : bool) : G unit := if b then gret tt else graise AssertionError.

Declare Scope gen_scope.
Notation "x <- m ;; k" := (gbind m (fun x => k))
  (at level 61, m at next level, right associativity) : gen_scope.
Notation "' p <- m ;; k" := (gbind m (fun x => match x with p => k end))
  (at level 61, p pattern, m at next level, right associativity) : gen_scope.
Open Scope gen_scope.

(** [l[0]] and [l[-1]] *)
Definition gindex0 (l : list string) : G string :=
  match l with [] => graise IndexError | x :: _ => gret x end.
Definition glast (l : list string) : G string :=
  match l with [] => graise IndexError | _ => gret (last l "") end.

(** The value of a bound that is known to be set. *)
Definition tval (t : option Z) : Z := match t with Some z => z | None => 0%Z end.

Definition concat_list_text (in_fns : list string) : string :=
  join_lines (map (fun infn => "file '" ++ infn ++ "'") in_fns)
  ++ String nl (String nl "").

(** The local function [_concat_cmd]. *)
Definition concat_cmd (in_fns : list string) (out_fn : string) : G cmd :=
  let concat_fn := out_fn ++ ".concat_list.txt" in
  _ <- register concat_fn ;;
  _ <- write concat_fn (concat_list_text in_fns) ;;
  gret ["ffmpeg"; "-y"; "-safe"; "0"; "-f"; "concat"; "-i"; concat_fn;
        "-c"; "copy"; out_fn].

(** [ffmpeg_opts] of one segment in the multi-segment loop. *)
Definition segment_opts (s : Segment) : G (list string) :=
  match start s, end_ s with
  | Some st, Some en =>
      _ <- gassert (Z.gtb en st) ;;
      gret ["-ss"; fmt_d st; "-t"; fmt_d (en - st)]
  | Some st, None => gret ["-ss"; fmt_d st]
  | None, Some en => gret ["-t"; fmt_d en]
  | None, None => gret []
  end.

(** [for segment_num, s in enumerate(vt.segments)]: returns
    [segment_files] and the [ffmpeg_opts] of the last iteration. *)
Fixpoint segment_loop (input0 output_fn ext : string) (n : nat) (segs : list Segment)
    (files opts : list string) : G (list string * list string) :=
  match segs with
  | [] => gret (files, opts)
  | s :: r =>
      let segment_fn := output_fn ++ ".segment" ++ fmt_d (Z.of_nat n) ++ ext in
      _ <- register segment_fn ;;
      o <- segment_opts s ;;
      _ <- register segment_fn ;;
      _ <- yield (["ffmpeg"; "-i"; input0; "-y"] ++ o ++ ["-c"; "copy"; segment_fn])%list ;;
      segment_loop input0 output_fn ext (S n) r (files ++ [segment_fn])%list o
  end.

Section Compiler.
(** [find_file(indir, basename)], assumed to find the file. *)
Variable find_file : string -> string -> string.
(** The random part of the name [tempfile.mkstemp] picks. *)
Variable mkstemp_rnd : string.
(** [os.path.abspath], which [tempfile.mkstemp] applies to [dir]. *)
Variable abspath : string -> string.

Definition out_path (vt : VideoTask) (outdir : string) : string :=
  path_join outdir (output_file vt).

Definition part_path (vt : VideoTask) (outdir : string) : string :=
  out_path vt outdir ++ ".part" ++ splitext_ext (output_file vt).

(** The [try] block; [true] when it runs to its end, [false] when it
    leaves by [return]. *)
Definition cutvid_try (vt : VideoTask) (indir outdir : string) : G bool :=
  let input_files := map (find_file indir) (input_files vt) in
  let output_fn := out_path vt outdir in
  let ext := splitext_ext (output_file vt) in
  let part := part_path vt outdir in
  if Nat.ltb 1 (length (segments vt)) then
    _inf <- (if Nat.ltb 1 (length input_files) then
               let inf := output_fn ++ ".whole" ++ ext in
               _ <- register inf ;;
               c <- concat_cmd input_files inf ;;
               _ <- yield c ;;
               gret inf
             else gindex0 input_files) ;;
    (* the extraction commands read [input_files[0]], not [inf] *)
    '(segment_files, ffmpeg_opts) <-
        segment_loop (hd "" input_files) output_fn ext 0 (segments vt) [] [] ;;
    c <- concat_cmd segment_files part ;;
    _ <- yield c ;;
    _ <- (if json_truthy (boost_volume vt) then
            let fi := output_fn ++ ".filter_input" ++ ext in
            _ <- yield ["mv"; "--"; part; fi] ;;
            _ <- register fi ;;
            yield (["ffmpeg"; "-i"; fi; "-y"] ++ ffmpeg_opts ++
                   ["-c:v"; "copy"; "-af"; ("volume=" ++ json_str (boost_volume vt))%string; part])%list
          else gret tt) ;;
    _ <- yield ["mv"; "--"; part; output_fn] ;;
    gret false
  else
    _ <- gassert (negb (json_truthy (boost_volume vt))) ;;
    seg <- (match segments vt with [] => graise IndexError | s :: _ => gret s end) ;;
    let st := start seg in
    let en := end_ seg in
    if (length input_files =? 1)%nat && truthy_time st && truthy_time en then
      _ <- yield ["ffmpeg"; "-noaccurate_seek"; "-i"; hd "" input_files; "-y";
                  "-ss"; fmt_d (tval st); "-c"; "copy"; "-t"; fmt_d (tval en - tval st);
                  "-avoid_negative_ts"; "make_zero"; part] ;;
      _ <- yield ["mv"; "--"; part; output_fn] ;;
      gret false
    else
      input_files1 <-
        (if truthy_time st then
           let tmpfile := output_fn ++ ".first_part" ++ ext in
           _ <- register tmpfile ;;
           i0 <- gindex0 input_files ;;
           _ <- yield ["ffmpeg"; "-i"; i0; "-y"; "-ss"; fmt_d (tval st);
                       "-c"; "copy"; tmpfile] ;;
           gret (tmpfile :: tl input_files)
         else gret input_files) ;;
      input_files2 <-
        (if truthy_time en then
           let tmpfile := output_fn ++ ".end_part" ++ ext in
           _ <- register tmpfile ;;
           il <- glast input_files1 ;;
           _ <- yield ["ffmpeg"; "-i"; il; "-y"; "-t"; fmt_d (tval en);
                       "-c"; "copy"; tmpfile] ;;
           gret (removelast input_files1 ++ [tmpfile])%list
         else gret input_files1) ;;
      if (length input_files2 =? 1)%nat then
        _ <- yield ["cp"; "--"; hd "" input_files2; part] ;;
        gret true
      else
        let tmpfile :=
          path_join (abspath outdir) (output_file vt ++ mkstemp_rnd ++ ".concat_list.txt") in
        _ <- write tmpfile "" ;;                 (* mkstemp creates the file *)
        _ <- register tmpfile ;;
        _ <- write tmpfile (concat_list_text input_files2) ;;
        _ <- yield ["ffmpeg"; "-y"; "-safe"; "0"; "-f"; "concat"; "-i"; tmpfile;
                    "-c"; "copy"; part] ;;
        gret true.

(** The whole generator: the [try] block, the [finally] clause, then
    either the exception, or (when the [try] block ran to its end) the
    last [yield] of the function. *)
Definition cutvid_commands (vt : VideoTask) (indir outdir : string) : list action :=
  let '(acts, r) := cutvid_try vt indir outdir in
  (acts ++ AFinally ::
     match r with
     | inl e => [ARaise e]
     | inr true => [AYield ["mv"; "--"; part_path vt outdir; out_path vt outdir]]
     | inr false => []
     end)%list.
End Compiler.
Close Scope gen_scope.

(** The commands of a trace, in order. *)
Fixpoint yields (tr : list action) : list cmd :=
  match tr with
  | [] => []
  | AYield c :: r => c :: yields r
  | _ :: r => yields r
  end.

(** The path a command writes: its last argument. *)
Definition target (c : cmd) : string := last c "".

(** ** The consumer in [main] and the [finally] clause

    The file system is the list of existing paths.  [exec c fs] runs a
    command: whether it exited with status 0, and the file system after
    it.  When a command fails, [main] raises [OSError]; the generator,
    dropped by the unwinding frame, is finalized, which closes it, so its
    [finally] clause runs if the failed command was yielded inside the
    [try] block.  An exception raised by that [close] is reported by the
    interpreter as unraisable ("Exception ignored in ...") and the
    [OSError] of [main] goes on propagating. *)

Inductive outcome :=
| ODone
(** [main]'s [OSError] after the failed command [c]; [ignored] is the
    path whose removal raised while the generator was being closed. *)
| OAborted (c : cmd) (ignored : option string)
| ORaised (e : exn).

Definition mem (p : string) (fs : list string) : bool := existsb (String.eqb p) fs.

Definition remove_path (p : string) (fs : list string) : list string :=
  filter (fun q => negb (String.eqb p q)) fs.

Section Executor.
Variable exec : cmd -> list string -> bool * list string.
(** Whether [os.remove] of an existing path fails (with an errno other
    than ENOENT). *)
Variable rm_fails : string -> bool.

(** [for fn in tmpfiles: try: os.remove(fn) except OSError ...]: the
    file system after it, and the path whose removal raised. *)
Fixpoint cleanup (reg fs : list string) : list string * option string :=
  match reg with
  | [] => (fs, None)
  | p :: r =>
      if mem p fs then
        if rm_fails p then (fs, Some p)
        else cleanup r (remove_path p fs)
      else cleanup r fs                      (* ENOENT is swallowed *)
  end.

Definition is_finally (a : action) : bool :=
  match a with AFinally => true | _ => false end.

(** Closing the generator after a failed command. *)
Definition close (rest : list action) (fs reg : list string) (c : cmd)
  : list string * list string * outcome :=
  if existsb is_finally rest then
    let '(fs', err) := cleanup reg fs in (fs', reg, OAborted c err)
  else (fs, reg, OAborted c None).

(** Running a generator trace: the final file system, the final
    [tmpfiles] list and how the run ended. *)
Fixpoint run (tr : list action) (fs reg : list string)
  : list string * list string * outcome :=
  match tr with
  | [] => (fs, reg, ODone)
  | ARegister p :: rest => run rest fs (reg ++ [p])%list
  | AWrite p _ :: rest => run rest (if mem p fs then fs else p :: fs) reg
  | AYield c :: rest =>
      let '(ok, fs') := exec c fs in
      if ok then run rest fs' reg else close rest fs' reg c
  | AFinally :: rest =>
      let '(fs', err) := cleanup reg fs in
      match err with
      | Some p => (fs', reg, ORaised (RemoveError p))
      | None => run rest fs' reg
      end
  | ARaise e :: _ => (fs, reg, ORaised e)
  end.
End Executor.

(** A concrete instance used by the examples: [find_file] under [indir],
    and the [mkstemp] name part. *)
Definition ex_find (indir b : string) : string := indir ++ "/" ++ b.
Definition ex_rnd : string := "k3j_9xq1".
Definition ex_abspath (d : string) : string :=
  if startswith "/" d then d else "/home/user/" ++ d.

Definition ex_task (inputs : list string) (segs : list Segment) (boost : json) : VideoTask :=
  mkVideoTask inputs "talk.mp4" JNull segs boost JNull (JBool true).

Example plan_ex_multi :
  yields (cutvid_commands ex_find ex_rnd ex_abspath
            (ex_task ["a.mp4"] [mkSegment (Some 10%Z) (Some 40%Z); mkSegment None (Some 5%Z)] JNull)
            "in" "out")
  = [["ffmpeg"; "-i"; "in/a.mp4"; "-y"; "-ss"; "10"; "-t"; "30"; "-c"; "copy";
      "out/talk.mp4.segment0.mp4"];
     ["ffmpeg"; "-i"; "in/a.mp4"; "-y"; "-t"; "5"; "-c"; "copy";
      "out/talk.mp4.segment1.mp4"];
     ["ffmpeg"; "-y"; "-safe"; "0"; "-f"; "concat"; "-i";
      "out/talk.mp4.part.mp4.concat_list.txt"; "-c"; "copy"; "out/talk.mp4.part.mp4"];
     ["mv"; "--"; "out/talk.mp4.part.mp4"; "out/talk.mp4"]].
Proof. reflexivity. Qed.

Example plan_ex_general :
  yields (cutvid_commands ex_find ex_rnd ex_abspath
            (ex_task ["a.mp4"; "b.mp4"] [mkSegment None None] JNull) "in" "out")
  = [["ffmpeg"; "-y"; "-safe"; "0"; "-f"; "concat"; "-i";
      "/home/user/out/talk.mp4k3j_9xq1.concat_list.txt"; "-c"; "copy"; "out/talk.mp4.part.mp4"];
     ["mv"; "--"; "out/talk.mp4.part.mp4"; "out/talk.mp4"]].
Proof. reflexivity. Qed.

(** A JSON extras token, built without quote escapes:
    [{"segments": [{"start": "5", "end": "9"}]}]. *)
Definition q : string := String dquote "".
Definition ex_json_text : string :=
  "{" ++ q ++ "segments" ++ q ++ ": [{" ++ q ++ "start" ++ q ++ ": " ++ q ++ "5" ++ q
  ++ ", " ++ q ++ "end" ++ q ++ ": " ++ q ++ "9" ++ q ++ "}]}".
Definition ex_json_value : json :=
  JObj [("segments", JArr [JObj [("start", JStr "5"); ("end", JStr "9")]])].
(** [json.loads] on the one literal the examples feed it. *)
Definition ex_json_loads (s : string) : option json :=
  if s =? ex_json_text then Some ex_json_value else None.

(** The time grammar [[HH:]MM:]SS of the spec, with the value it denotes. *)
Definition digit_field (d : list ascii) : Prop :=
  d <> [] /\ Forall (fun c => is_digit c = true) d.

Inductive time_form : list ascii -> Z -> Prop :=
| TF_s ss :
    digit_field ss -> time_form ss (py_int ss)
| TF_ms ms ss :
    digit_field ms -> digit_field ss ->
    time_form (ms ++ ":"%char :: ss) (60 * py_int ms + py_int ss)%Z
| TF_hms hs ms ss :
    digit_field hs -> digit_field ms -> digit_field ss ->
    time_form (hs ++ ":"%char :: ms ++ ":"%char :: ss)
              (3600 * py_int hs + 60 * py_int ms + py_int ss)%Z.

(** The positional [start] / [end] of a token list, as the task parser
    reads them when they parse. *)
Definition positional_time (tokens : list string) (i : nat) : option Z :=
  if Nat.leb (length tokens) i then None
  else match parse_seconds (nth i tokens "") with ROk x => x | _ => None end.

(** The [Segment] invariant of the data model: when both bounds are set,
    the end lies after the start. *)
Definition seg_valid (s : Segment) : Prop :=
  match start s, end_ s with
  | Some a, Some b => (a < b)%Z
  | _, _ => True
  end.

(** What a yielded command does, read off its arguments. *)
Inductive cmd_kind := KExtract | KConcat | KFilter | KRename | KCopy | KOther.

Definition kind_of (c : cmd) : cmd_kind :=
  let p := nth 0 c "" in
  if p =? "mv" then KRename
  else if p =? "cp" then KCopy
  else if p =? "ffmpeg" then
    if (nth 1 c "" =? "-y") && (nth 5 c "" =? "concat") then KConcat
    else if nth 1 c "" =? "-i" then
      (* the third argument from the end: [-af] of the filter, [-c] of an
         extraction *)
      if nth 2 (rev c) "" =? "-af" then KFilter else KExtract
    else KOther
  else KOther.

(** The task with its segment list replaced. *)
Definition set_segments (vt : VideoTask) (segs : list Segment) : VideoTask :=
  mkVideoTask (input_files vt) (output_file vt) (description vt) segs
    (boost_volume vt) (privacy vt) (upload vt).

(** A temporary of the destination [base]: [base] followed by a
    non-empty suffix. *)
Definition suffixed (base p : string) : Prop :=
  exists x, x <> "" /\ p = base ++ x.

(** Actions of the [try] block that touch only temporaries. *)
Definition tmp_action (base : string) (a : action) : Prop :=
  match a with
  | ARegister p => suffixed base p
  | AWrite p _ => suffixed base p
  | AYield c => suffixed base (target c)
  | AFinally | ARaise _ => False
  end.

(** A computation whose actions all touch temporaries, and whose result
    satisfies [Q]. *)
Definition tmp_run {A} (base : string) (m : G A) (Q : A -> Prop) : Prop :=
  Forall (tmp_action base) (fst m) /\ (forall a, snd m = inr a -> Q a).

(** The shape of the [try] block: only temporaries are touched, except by
    a last yield of [final] right before a [return]. *)
Definition plan_shape (base : string) (final : cmd) (m : G bool) : Prop :=
  (Forall (tmp_action base) (fst m) /\ snd m <> inr false)
  \/ (exists pre, fst m = (pre ++ [AYield final])%list
                  /\ Forall (tmp_action base) pre /\ snd m = inr false).

(** The characters of the random part of a [tempfile] name. *)
Definition tempname_ok (rnd : string) : bool :=
  forallb (fun c => existsb (Ascii.eqb c)
                      (list_ascii_of_string "abcdefghijklmnopqrstuvwxyz0123456789_"))
          (list_ascii_of_string rnd).

(** The rename that publishes the destination. *)
Definition final_rename (vt : VideoTask) (outdir : string) : cmd :=
  ["mv"; "--"; part_path vt outdir; out_path vt outdir].

(** Actions of a [try] block that register only paths satisfying [P]
    (no [finally] and no exception in it). *)
Definition act_ok (P : string -> Prop) (a : action) : Prop :=
  match a with
  | ARegister p => P p
  | AWrite _ _ | AYield _ => True
  | AFinally | ARaise _ => False
  end.

(** A runner for the examples: every command succeeds and creates its
    target; and one where [cp] fails. *)
Definition ex_exec (c : cmd) (fs : list string) : bool * list string := (true, target c :: fs).
Definition ex_exec_cp_fails (c : cmd) (fs : list string) : bool * list string :=
  if (hd "" c =? "cp")%string then (false, fs) else (true, target c :: fs).



(** ** File lookup and upload: [find_file], [find_upload_bin], [calc_upload_cmd] *)

(** The exceptions of these functions besides those of [exn]. *)
Inductive error :=
| Exn (e : exn)
| FileNotFoundError      (* two files with the basename *)
| SystemError            (* no upload program found *)
| PlainException.        (* [raise Exception('Unsupported privacy %r' ...)] *)

Definition ebind {A B} (m : error + A) (k : A -> error + B) : error + B :=
  match m with
  | inl e => inl e
  | inr a => k a
  end.

Declare Scope err_scope.
Notation "x <- m ;; k" := (ebind m (fun x => k))
  (at level 61, m at next level, right associativity) : err_scope.
Open Scope err_scope.

(** [if found:] on [found], which is [None] or a path. *)
Definition found_truthy (found : option string) : bool :=
  match found with
  | Some s => negb (s =? "")
  | None => false
  end.

(** [for path, _, files in os.walk(root_dir)]: the walk is given as the
    list of the directories it visits, each with its file names. *)
Fixpoint find_file_loop (basename : string) (entries : list (string * list string))
    (found : option string) : error + option string :=
  match entries with
  | [] => inr found
  | (path, files) :: rest =>
      if existsb (String.eqb basename) files then
        if found_truthy found then inl FileNotFoundError
        else find_file_loop basename rest (Some (path_join path basename))
      else find_file_loop basename rest found
  end.

Definition find_file (walk : string -> list (string * list string))
    (root_dir basename : string) : error + string :=
  found <- find_file_loop basename (walk root_dir) None ;;
  if negb (found_truthy found) then inl (Exn ValueError)
  else inr (match found with Some s => s | None => "" end).

Definition upload_candidates : list string :=
  ["youtube_upload"; "youtube-upload"; "yt-upload"].

(** [which candidate]: [Some] of its decoded output, or [None] when it
    exits with a non-zero status ([CalledProcessError]). *)
Fixpoint find_upload_bin_loop (which : string -> option string) (cands : list string)
    : error + string :=
  match cands with
  | [] => inl SystemError
  | candidate :: rest =>
      match which candidate with
      | Some output => inr (strip output)
      | None => find_upload_bin_loop which rest
      end
  end.

Definition find_upload_bin (which : string -> option string) : error + string :=
  find_upload_bin_loop which upload_candidates.

(** [d[k]] on a dictionary loaded from JSON (the last duplicate key wins). *)
Definition dict_lookup (kvs : list (string * json)) (k : string) : option json :=
  fold_left (fun acc '(k', v) => if k' =? k then Some v else acc) kvs None.

Definition getitem (kvs : list (string * json)) (k : string) : error + json :=
  match dict_lookup kvs k with
  | Some v => inr v
  | None => inl (Exn KeyError)
  end.

(** [v == s] for a JSON value and a string. *)
Definition json_eq_str (v : json) (s : string) : bool :=
  match v with
  | JStr t => t =? s
  | _ => false
  end.

(** [v is not None] *)
Definition is_not_none (v : json) : bool :=
  match v with
  | JNull => false
  | _ => true
  end.

(** The command is a list of JSON values: the title, the binary path and
    the file name are strings, the configuration values, the description
    and the privacy are passed as loaded. *)
Definition calc_upload_cmd (which : string -> option string)
    (upload_config : list (string * json)) (title : string) (vt : VideoTask)
    (tmp_fn : string) : error + list json :=
  binpath <- find_upload_bin which ;;
  if endswith "youtube_upload" binpath then
    category <- getitem upload_config "category" ;;
    email <- getitem upload_config "email" ;;
    password <- getitem upload_config "password" ;;
    let res := [JStr binpath; JStr "--category"; category; JStr "--email"; email;
                JStr "--password"; password; JStr "-t"; JStr title] in
    res <- (if json_truthy (privacy vt) then
              if json_eq_str (privacy vt) "public" then inr (res ++ [JStr "--public"])%list
              else if json_eq_str (privacy vt) "private" then inr (res ++ [JStr "--private"])%list
              else if json_eq_str (privacy vt) "unlisted" then inr (res ++ [JStr "--unlisted"])%list
              else inl PlainException
            else inr res) ;;
    let res := if is_not_none (description vt)
               then (res ++ [JStr "--description"; description vt])%list else res in
    inr (res ++ [JStr "--"; JStr tmp_fn])%list
  else
    category <- getitem upload_config "category" ;;
    let res := [JStr binpath; JStr "--category"; category; JStr "-t"; JStr title] in
    let res := if is_not_none (description vt)
               then (res ++ [JStr "--description"; description vt])%list else res in
    let res := if json_truthy (privacy vt)
               then (res ++ [JStr "--privacy"; privacy vt])%list else res in
    inr (res ++ [JStr "--"; JStr tmp_fn])%list.

Close Scope err_scope.

(** ** Writing tokens as a line of the task file

    A token that needs no quoting (non-empty, only ASCII characters, no
    whitespace and no double quote, not starting with a quote or [#]) is
    written as it is; any other token in double quotes.  Tokens are
    separated by one space. *)

Definition bare_token (t : string) : bool :=
  match t with
  | EmptyString => false
  | String c _ =>
      negb (Ascii.eqb c dquote) && negb (Ascii.eqb c squote) && negb (Ascii.eqb c "#")
  end
  && forallb (fun c => negb (is_space c) && negb (Ascii.eqb c dquote)
                       && Nat.ltb (nat_of_ascii c) 128)
       (list_ascii_of_string t).

Definition render_token (t : string) : string :=
  if bare_token t then t else String dquote (t ++ String dquote "").

Fixpoint render_tokens (ts : list string) : string :=
  match ts with
  | [] => ""
  | [t] => render_token t
  | t :: r => render_token t ++ " " ++ render_tokens r
  end.

(** * Properties *)

(** ** Concrete runs *)

(** C3 (counterexample): a blank line in the middle of the task file
    does not end parsing; the task on the line after it is produced. *)
Lemma C3_blank_line_skipped :
  parse_video_tasks ex_json_loads
    ["a.mp4 first
"; "
"; "b.mp4 second
"]
  = ([mkVideoTask ["a.mp4"] "first.mp4" JNull [mkSegment None None] JNull JNull (JBool true);
      mkVideoTask ["b.mp4"] "second.mp4" JNull [mkSegment None None] JNull JNull (JBool true)],
     POk).
Proof. reflexivity. Qed.

(** C4 (code bug): with two input files and two segments, the first
    command concatenates the inputs into the [.whole] temporary, but the
    extraction commands read the first input file, not that temporary. *)
Lemma C4_extraction_reads_first_input :
  yields (cutvid_commands ex_find ex_rnd ex_abspath
            (ex_task ["a.mp4"; "b.mp4"]
               [mkSegment None (Some 10%Z); mkSegment (Some 20%Z) (Some 30%Z)] JNull)
            "in" "out")
  = [["ffmpeg"; "-y"; "-safe"; "0"; "-f"; "concat"; "-i";
      "out/talk.mp4.whole.mp4.concat_list.txt"; "-c"; "copy"; "out/talk.mp4.whole.mp4"];
     ["ffmpeg"; "-i"; "in/a.mp4"; "-y"; "-t"; "10"; "-c"; "copy";
      "out/talk.mp4.segment0.mp4"];
     ["ffmpeg"; "-i"; "in/a.mp4"; "-y"; "-ss"; "20"; "-t"; "10"; "-c"; "copy";
      "out/talk.mp4.segment1.mp4"];
     ["ffmpeg"; "-y"; "-safe"; "0"; "-f"; "concat"; "-i";
      "out/talk.mp4.part.mp4.concat_list.txt"; "-c"; "copy"; "out/talk.mp4.part.mp4"];
     ["mv"; "--"; "out/talk.mp4.part.mp4"; "out/talk.mp4"]].
Proof. reflexivity. Qed.

(** C5 (code bug): on the single-segment fast path a segment with
    [end <= start] is not rejected: the generator yields an extraction
    with a negative duration and the rename, and returns normally. *)
Lemma C5_fast_path_accepts_reversed_segment :
  cutvid_commands ex_find ex_rnd ex_abspath
    (ex_task ["a.mp4"] [mkSegment (Some 40%Z) (Some 10%Z)] JNull) "in" "out"
  = [AYield ["ffmpeg"; "-noaccurate_seek"; "-i"; "in/a.mp4"; "-y"; "-ss"; "40";
             "-c"; "copy"; "-t"; "-30"; "-avoid_negative_ts"; "make_zero";
             "out/talk.mp4.part.mp4"];
     AYield ["mv"; "--"; "out/talk.mp4.part.mp4"; "out/talk.mp4"];
     AFinally].
Proof. reflexivity. Qed.

(** C6 (counterexample): in the multi-segment path a start of 0 is not
    the same as an absent start: it adds [-ss 0] to the extraction. *)
Lemma C6_zero_start_differs_multi_segment :
  hd [] (yields (cutvid_commands ex_find ex_rnd ex_abspath
            (ex_task ["a.mp4"] [mkSegment (Some 0%Z) (Some 5%Z); mkSegment None (Some 7%Z)] JNull)
            "in" "out"))
  = ["ffmpeg"; "-i"; "in/a.mp4"; "-y"; "-ss"; "0"; "-t"; "5"; "-c"; "copy";
     "out/talk.mp4.segment0.mp4"]
  /\ hd [] (yields (cutvid_commands ex_find ex_rnd ex_abspath
            (ex_task ["a.mp4"] [mkSegment None (Some 5%Z); mkSegment None (Some 7%Z)] JNull)
            "in" "out"))
  = ["ffmpeg"; "-i"; "in/a.mp4"; "-y"; "-t"; "5"; "-c"; "copy";
     "out/talk.mp4.segment0.mp4"].
Proof. split; reflexivity. Qed.

(** C8 (counterexample): a positional start of [0] next to a non-empty
    [segments] list is not rejected; the segments from the JSON are used. *)
Lemma C8_zero_start_with_segments_accepted :
  parse_task_line ex_json_loads ("a.mp4 talk 0 - '" ++ ex_json_text ++ "'")
  = ROk (mkVideoTask ["a.mp4"] "talk.mp4" JNull [mkSegment (Some 5%Z) (Some 9%Z)]
           JNull JNull (JBool true)).
Proof. vm_compute. reflexivity. Qed.

(** C9 (counterexample): a string outside the grammar makes
    [parse_seconds] fail with an [AttributeError] (the failed match is
    [None]); no dedicated error type is raised. *)
Lemma C9_malformed_raises_attribute_error :
  parse_seconds "1:2:3:4" = RErr AttributeError.
Proof. reflexivity. Qed.

Lemma parse_tokens_comment_loops (n : nat) :
  parse_tokens_fuel n "#note" = ([], PTOutOfFuel).
Proof. induction n as [|n IH]; [reflexivity|]. simpl. exact IH. Qed.

(** C10 (code bug): on a line whose rest after a token starts with [#],
    the tokenizer's [continue] leaves the line unchanged, so the loop
    never ends: no number of iterations finishes it.  The task parser
    hands such a line to the tokenizer. *)
Theorem C10_tokenizer_diverges_on_comment :
  (forall n, snd (parse_tokens_fuel n "a.mp4 out #note
") = PTOutOfFuel)
  /\ parse_video_tasks ex_json_loads ["a.mp4 out #note
"] = ([], PDiverge).
Proof.
  split; [|reflexivity].
  intros [|[|[|n]]]; try reflexivity.
  simpl. rewrite parse_tokens_comment_loops. reflexivity.
Qed.

(** ** The time parser *)

Lemma span_digits_app (d r : list ascii) :
  Forall (fun c => is_digit c = true) d ->
  match r with c :: _ => is_digit c = false | [] => True end ->
  span_digits (d ++ r) = (d, r).
Proof.
  intros Hd Hr. induction Hd as [|c d Hc Hd IH]; simpl.
  - destruct r as [|c r]; [reflexivity|]. simpl. rewrite Hr. reflexivity.
  - rewrite Hc, IH. reflexivity.
Qed.

Lemma span_digits_spec (l d r : list ascii) :
  span_digits l = (d, r) ->
  l = (d ++ r)%list /\ Forall (fun c => is_digit c = true) d /\
  match r with c :: _ => is_digit c = false | [] => True end.
Proof.
  revert d r. induction l as [|c l IH]; intros d r H; simpl in H.
  - inversion H; subst. auto.
  - destruct (is_digit c) eqn:Hc.
    + destruct (span_digits l) as [d' r'] eqn:E. inversion H; subst.
      destruct (IH _ _ eq_refl) as (-> & Hd & Hr). auto.
    + inversion H; subst. simpl. auto.
Qed.

Lemma match_secs_spec (l d : list ascii) :
  match_secs l = Some d ->
  digit_field d /\ (l = d \/ l = (d ++ [nl])%list).
Proof.
  unfold match_secs. destruct (span_digits l) as [d' r] eqn:E.
  destruct (span_digits_spec _ _ _ E) as (-> & Hd & _).
  destruct (nonempty d' && at_end r) eqn:Hb; [|discriminate].
  intros H; inversion H; subst. apply andb_prop in Hb as [Hn Ha].
  split; [split; [destruct d; discriminate|exact Hd]|].
  destruct r as [|c [|c' r]]; simpl in Ha; try discriminate.
  - left. apply app_nil_r.
  - right. apply Ascii.eqb_eq in Ha. subst. reflexivity.
Qed.

Lemma match_field_spec (l d r : list ascii) :
  match_field l = Some (d, r) ->
  digit_field d /\ l = (d ++ ":"%char :: r)%list.
Proof.
  unfold match_field. destruct (span_digits l) as [d' r'] eqn:E.
  destruct (span_digits_spec _ _ _ E) as (-> & Hd & _).
  destruct r' as [|c r']; [discriminate|].
  destruct (nonempty d' && Ascii.eqb c ":") eqn:Hb; [|discriminate].
  intros H; inversion H; subst. apply andb_prop in Hb as [Hn Hc].
  apply Ascii.eqb_eq in Hc. subst.
  split; [split; [destruct d; discriminate|exact Hd]|reflexivity].
Qed.

Lemma not_digit_colon : is_digit ":"%char = false.
Proof. reflexivity. Qed.

Lemma match_field_form (d r : list ascii) :
  digit_field d -> match_field (d ++ ":"%char :: r)%list = Some (d, r).
Proof.
  intros [Hne Hd]. unfold match_field.
  rewrite (span_digits_app d (":"%char :: r) Hd not_digit_colon).
  destruct d; [contradiction|reflexivity].
Qed.

Lemma match_field_last (d : list ascii) :
  digit_field d -> match_field d = None.
Proof.
  intros [Hne Hd]. unfold match_field.
  rewrite <- (app_nil_r d) at 1. rewrite (span_digits_app d [] Hd I). reflexivity.
Qed.

Lemma match_secs_last (d : list ascii) :
  digit_field d -> match_secs d = Some d.
Proof.
  intros [Hne Hd]. unfold match_secs.
  rewrite <- (app_nil_r d) at 1. rewrite (span_digits_app d [] Hd I).
  destruct d; [contradiction|reflexivity].
Qed.

Lemma re_time_form (l : list ascii) (v : Z) :
  time_form l v ->
  exists h m s, re_time l = Some (h, m, s) /\
    (match m with Some m => if nonempty m then py_int s + 60 * py_int m else py_int s
                  | None => py_int s end
     + match h with Some h => if nonempty h then 60 * 60 * py_int h else 0
                  | None => 0 end = v)%Z.
Proof.
  intros Hf. destruct Hf as [ss Hs | ms ss Hm Hs | hs ms ss Hh Hm Hs].
  - exists None, None, ss. unfold re_time.
    rewrite (match_field_last _ Hs), (match_secs_last _ Hs). split; [reflexivity|lia].
  - exists None, (Some ms), ss. unfold re_time.
    rewrite (match_field_form _ _ Hm), (match_field_last _ Hs), (match_secs_last _ Hs).
    split; [reflexivity|]. destruct Hm as [Hne _]. destruct ms; [contradiction|]. simpl. lia.
  - exists (Some hs), (Some ms), ss. unfold re_time.
    rewrite (match_field_form _ _ Hh), (match_field_form _ _ Hm), (match_secs_last _ Hs).
    split; [reflexivity|].
    destruct Hm as [Hne _]. destruct ms; [contradiction|].
    destruct Hh as [Hne' _]. destruct hs; [contradiction|]. simpl. lia.
Qed.

Lemma match_secs_no_nl (r s : list ascii) :
  match_secs r = Some s -> ~ In nl r -> digit_field s /\ r = s.
Proof.
  intros H Hn. destruct (match_secs_spec _ _ H) as [Hs [->| ->]]; [auto|].
  exfalso. apply Hn. apply in_or_app. right. left. reflexivity.
Qed.

Lemma not_in_field (d r : list ascii) :
  ~ In nl (d ++ ":"%char :: r)%list -> ~ In nl r.
Proof. intros H Hi. apply H. apply in_or_app. right. right. exact Hi. Qed.

Lemma re_time_sound (l : list ascii) x :
  re_time l = Some x -> ~ In nl l -> exists v, time_form l v.
Proof.
  intros H Hn. unfold re_time in H.
  destruct (match_field l) as [[h r]|] eqn:E1.
  - destruct (match_field_spec _ _ _ E1) as [Hh ->].
    pose proof (not_in_field _ _ Hn) as Hnr.
    destruct (match_field r) as [[m r']|] eqn:E2.
    + destruct (match_field_spec _ _ _ E2) as [Hm ->].
      pose proof (not_in_field _ _ Hnr) as Hnr'.
      destruct (match_secs r') as [s|] eqn:E3.
      * destruct (match_secs_no_nl _ _ E3 Hnr') as [Hs ->].
        eexists. apply TF_hms; assumption.
      * (* the minutes-only alternative: [match_secs] fails on [m ++ ":" :: r'] *)
        destruct (match_secs (m ++ ":"%char :: r')%list) as [s|] eqn:E4.
        -- destruct (match_secs_no_nl _ _ E4 Hnr) as [_ Heq].
           destruct Hm as [_ Hm]. destruct Hh as [_ Hh].
           exfalso. destruct (match_secs_spec _ _ E4) as [[_ Hs] _].
           rewrite <- Heq in Hs. apply Forall_app in Hs as [_ Hs].
           inversion Hs. discriminate.
        -- destruct (match_secs ((h ++ ":"%char :: m ++ ":"%char :: r')%list)) as [s'|] eqn:E5;
             [|discriminate].
           destruct (match_secs_no_nl _ _ E5 Hn) as [[_ Hs] Heq].
           rewrite <- Heq in Hs. apply Forall_app in Hs as [_ Hs].
           inversion Hs. discriminate.
    + destruct (match_secs r) as [s|] eqn:E3.
      * destruct (match_secs_no_nl _ _ E3 Hnr) as [Hs ->].
        eexists. apply TF_ms; assumption.
      * destruct (match_secs (h ++ ":"%char :: r)%list) as [s'|] eqn:E5; [|discriminate].
        destruct (match_secs_no_nl _ _ E5 Hn) as [[_ Hs] Heq].
        rewrite <- Heq in Hs. apply Forall_app in Hs as [_ Hs].
        inversion Hs. discriminate.
  - destruct (match_secs l) as [s|] eqn:E3; [|discriminate].
    destruct (match_secs_no_nl _ _ E3 Hn) as [Hs ->]. eexists. apply TF_s. exact Hs.
Qed.

Lemma contains_char_In (c : ascii) (s : string) :
  contains_char c s = false -> ~ In c (list_ascii_of_string s).
Proof.
  induction s as [|d s IH]; simpl; [auto|].
  intros H [Heq|Hi]; apply orb_false_iff in H as [H1 H2].
  - subst. rewrite Ascii.eqb_refl in H1. discriminate.
  - exact (IH H2 Hi).
Qed.

Lemma time_form_not_dash (l : list ascii) (v : Z) :
  time_form l v -> (string_of_list_ascii l =? "-") = false.
Proof.
  intros Hf. apply String.eqb_neq. intros Heq.
  assert (Hhd : exists c r, l = c :: r /\ is_digit c = true).
  { assert (Hfirst : forall d r, digit_field d ->
            exists c r', (d ++ r)%list = c :: r' /\ is_digit c = true).
    { intros d r [Hne Hall]. destruct d as [|c d]; [contradiction|].
      inversion Hall; subst. exists c, (d ++ r)%list. auto. }
    destruct Hf as [d Hd | d ss Hd _ | d ms ss Hd _ _].
    - rewrite <- (app_nil_r d). apply Hfirst. exact Hd.
    - apply Hfirst. exact Hd.
    - apply Hfirst. exact Hd. }
  destruct Hhd as (c & r & -> & Hc). simpl in Heq. inversion Heq. subst. discriminate.
Qed.

(** C9 (amended): [parse_seconds] maps ["-"] to [None] and every string
    of the form [[HH:]MM:]SS to HH*3600 + MM*60 + SS; every other string
    without a newline character makes it fail with the [AttributeError]
    of calling [group] on the failed match. *)
Theorem C9_parse_seconds_grammar :
  parse_seconds "-" = ROk None
  /\ parse_seconds "123" = ROk (Some 123%Z)
  /\ parse_seconds "1:01:40" = ROk (Some 3700%Z)
  /\ (forall l v, time_form l v -> parse_seconds (string_of_list_ascii l) = ROk (Some v))
  /\ (forall s, s <> "-" -> contains_char nl s = false ->
        (forall v, ~ time_form (list_ascii_of_string s) v) ->
        parse_seconds s = RErr AttributeError).
Proof.
  split; [reflexivity|]. split; [reflexivity|]. split; [reflexivity|]. split.
  - intros l v Hf. unfold parse_seconds. rewrite (time_form_not_dash _ _ Hf).
    rewrite list_ascii_of_string_of_list_ascii.
    destruct (re_time_form _ _ Hf) as (h & m & s & -> & Hv).
    f_equal. f_equal. rewrite <- Hv.
    destruct h as [h|], m as [m|]; try destruct (nonempty h); try destruct (nonempty m); lia.
  - intros s Hs Hnl Hnot. unfold parse_seconds.
    apply String.eqb_neq in Hs. rewrite Hs.
    destruct (re_time (list_ascii_of_string s)) as [x|] eqn:E; [|reflexivity].
    exfalso. destruct (re_time_sound _ _ E (contains_char_In _ _ Hnl)) as [v Hv].
    exact (Hnot v Hv).
Qed.

(** ** The task-file parser *)

(** C3 (amended): a line that is empty after trimming, or whose first
    character is [#], is skipped: removing it from anywhere in the file
    changes neither the tasks produced nor how parsing ends, so the tasks
    of the lines after it are still produced. *)
Theorem C3_skipped_line_is_ignored (json_loads : string -> option json)
    (before after : list string) (line : string)
    (Hskip : ((strip line =? "") || startswith "#" line) = true) :
  parse_video_tasks json_loads (before ++ line :: after)%list
  = parse_video_tasks json_loads (before ++ after)%list.
Proof.
  induction before as [|l before IH]; simpl.
  - rewrite Hskip. reflexivity.
  - destruct ((strip l =? "") || startswith "#" l); [exact IH|].
    destruct (parse_task_line json_loads l); try reflexivity. rewrite IH. reflexivity.
Qed.

Lemma C3_skipped_line_is_ignored_witness :
  ((strip "   
" =? "") || startswith "#" "   
") = true
  /\ parse_video_tasks ex_json_loads (["a.mp4 first
"] ++ "   
" :: ["b.mp4 second
"])%list
     = parse_video_tasks ex_json_loads (["a.mp4 first
"] ++ ["b.mp4 second
"])%list.
Proof.
  split; [reflexivity|].
  apply C3_skipped_line_is_ignored. reflexivity.
Defined.

Lemma rbind_no_assert {A B} (m : res A) (k : A -> res B) :
  m <> RErr AssertionError -> (forall a, k a <> RErr AssertionError) ->
  rbind m k <> RErr AssertionError.
Proof.
  intros H K. destruct m as [a|e|]; simpl in *; [apply K| |discriminate].
  intros He. inversion He; subst. apply H. reflexivity.
Qed.

Lemma parse_seconds_no_assert (s : string) : parse_seconds s <> RErr AssertionError.
Proof.
  unfold parse_seconds. destruct (s =? "-"); [discriminate|].
  destruct (re_time _) as [[[? ?] ?]|]; discriminate.
Qed.

Lemma parse_segments_in_no_assert (v : json) : parse_segments_in v <> RErr AssertionError.
Proof.
  destruct v as [| | | |l|]; simpl; try discriminate.
  induction l as [|x l IH]; simpl; [discriminate|].
  apply rbind_no_assert; [|intros; apply rbind_no_assert; [exact IH|discriminate]].
  unfold parse_segment_json.
  assert (Hs : forall k, subscript x k <> RErr AssertionError).
  { intros k. destruct x; simpl; try discriminate.
    destruct (find _ _) as [[]|]; discriminate. }
  assert (Hp : forall j, parse_seconds_json j <> RErr AssertionError).
  { intros []; simpl; try discriminate. apply parse_seconds_no_assert. }
  apply rbind_no_assert; [apply Hs|]. intros a.
  apply rbind_no_assert; [apply Hp|]. intros b.
  apply rbind_no_assert; [apply Hs|]. intros c.
  apply rbind_no_assert; [apply Hp|]. intros d. discriminate.
Qed.

(** C8 (amended): with a non-empty [segments] list in the JSON extras,
    the task parser fails (an assertion) when the positional start or
    end is set to a non-zero value; a zero value, like ["-"], passes,
    and the task then has exactly the segments parsed from the JSON.
    When [segments] is absent or empty, the parsed task has the single
    segment made of the positional start and end. *)
Theorem C8_segments_and_positional_bounds (json_loads : string -> option json) :
  (forall line tokens kvs st en,
     parse_tokens line = (tokens, PTOk) ->
     length tokens = 5 ->
     parse_seconds (nth 2 tokens "") = ROk st ->
     parse_seconds (nth 3 tokens "") = ROk en ->
     json_loads (nth 4 tokens "") = Some (JObj kvs) ->
     json_truthy (dict_get kvs "segments" JNull) = true ->
     (truthy_time st || truthy_time en) = true ->
     parse_task_line json_loads line = RErr AssertionError)
  /\ (forall line tokens kvs st en,
     parse_tokens line = (tokens, PTOk) ->
     length tokens = 5 ->
     parse_seconds (nth 2 tokens "") = ROk st ->
     parse_seconds (nth 3 tokens "") = ROk en ->
     json_loads (nth 4 tokens "") = Some (JObj kvs) ->
     (truthy_time st || truthy_time en) = false ->
     parse_task_line json_loads line <> RErr AssertionError
     /\ (json_truthy (dict_get kvs "segments" JNull) = true ->
         (forall t, parse_task_line json_loads line = ROk t ->
            parse_segments_in (dict_get kvs "segments" JNull) = ROk (segments t))
         /\ (forall segs, parse_segments_in (dict_get kvs "segments" JNull) = ROk segs ->
            exists t, parse_task_line json_loads line = ROk t /\ segments t = segs)))
  /\ (forall line tokens t,
     parse_tokens line = (tokens, PTOk) ->
     (forall kvs, length tokens = 5 -> json_loads (nth 4 tokens "") = Some (JObj kvs) ->
        json_truthy (dict_get kvs "segments" JNull) = false) ->
     parse_task_line json_loads line = ROk t ->
     segments t = [mkSegment (positional_time tokens 2) (positional_time tokens 3)]).
Proof.
  split; [|split].
  - intros line tokens kvs st en Hp Hl H2 H3 Hj Hs Ht.
    unfold parse_task_line. rewrite Hp, Hl. simpl.
    rewrite H2, H3. simpl. rewrite Hj. simpl. rewrite Hs. simpl.
    destruct (truthy_time st) eqn:Es; simpl; [reflexivity|].
    destruct (truthy_time en) eqn:Ee; [reflexivity|].
    simpl in Ht. discriminate Ht.
  - intros line tokens kvs st en Hp Hl H2 H3 Hj Ht.
    apply orb_false_iff in Ht as [Hs He].
    unfold parse_task_line. rewrite Hp, Hl. simpl.
    rewrite H2, H3. simpl. rewrite Hj. simpl.
    destruct (json_truthy (dict_get kvs "segments" JNull)); simpl.
    + rewrite Hs, He. simpl. split.
      * apply rbind_no_assert; [apply parse_segments_in_no_assert|discriminate].
      * intros _. split.
        -- intros t Ht. destruct (parse_segments_in _); simpl in Ht; try discriminate.
           inversion Ht. reflexivity.
        -- intros segs Hsg. rewrite Hsg. simpl. eexists. split; reflexivity.
    + split; [discriminate|]. intros H; discriminate H.
  - intros line tokens t Hp Hseg Hok.
    unfold parse_task_line in Hok. rewrite Hp in Hok.
    unfold positional_time.
    destruct tokens as [|t0 [|t1 [|t2 [|t3 [|t4 [|t5 r]]]]]]; simpl in Hok; try congruence;
      simpl; repeat match type of Hok with
                    | context [parse_seconds ?x] =>
                        destruct (parse_seconds x); simpl in Hok; try congruence
                    end.
    all: try (inversion Hok; reflexivity).
    all: simpl in Hseg.
    all: destruct (json_loads t4) as [[]|]; simpl in Hok; try congruence.
    all: rewrite (Hseg _ eq_refl eq_refl) in Hok; inversion Hok; reflexivity.
Qed.

(** ** The command plan *)

Lemma segment_opts_valid (s : Segment) :
  seg_valid s -> exists o, segment_opts s = ([], inr o).
Proof.
  unfold seg_valid, segment_opts.
  destruct (start s) as [a|], (end_ s) as [b|]; intros H; try (eexists; reflexivity).
  rewrite (proj2 (Z.gtb_lt b a) H). eexists; reflexivity.
Qed.

(** C7: a task with three (valid) segments and one input file compiles
    to 3 extractions, the merge concatenation and the rename (5 commands)
    without an audio gain, and to those plus the rename to the filter
    input and the filter command (7 commands) with one. *)
Theorem C7_three_segment_plan (find_file : string -> string -> string) (rnd : string)
    (abspath : string -> string)
    (vt : VideoTask) (indir outdir : string)
    (Hsegs : length (segments vt) = 3) (Hinputs : length (input_files vt) = 1)
    (Hvalid : Forall seg_valid (segments vt)) :
  (json_truthy (boost_volume vt) = false ->
     length (yields (cutvid_commands find_file rnd abspath vt indir outdir)) = 5
     /\ map kind_of (yields (cutvid_commands find_file rnd abspath vt indir outdir))
        = [KExtract; KExtract; KExtract; KConcat; KRename])
  /\ (json_truthy (boost_volume vt) = true ->
     length (yields (cutvid_commands find_file rnd abspath vt indir outdir)) = 7
     /\ map kind_of (yields (cutvid_commands find_file rnd abspath vt indir outdir))
        = [KExtract; KExtract; KExtract; KConcat; KRename; KFilter; KRename]).
Proof.
  destruct vt as [ins out desc segs boost priv up]; simpl in *.
  destruct segs as [|s1 [|s2 [|s3 [|]]]]; try discriminate.
  destruct ins as [|i [|]]; try discriminate.
  apply Forall_cons_iff in Hvalid as [V1 Hvalid].
  apply Forall_cons_iff in Hvalid as [V2 Hvalid].
  apply Forall_cons_iff in Hvalid as [V3 _].
  destruct (segment_opts_valid _ V1) as [o1 E1].
  destruct (segment_opts_valid _ V2) as [o2 E2].
  destruct (segment_opts_valid _ V3) as [o3 E3].
  unfold cutvid_commands, cutvid_try. simpl. rewrite E1, E2, E3. simpl.
  split; intros Hb; rewrite Hb; simpl.
  - split; [reflexivity|].
    unfold kind_of. simpl. rewrite !rev_app_distr. reflexivity.
  - split; [reflexivity|].
    unfold kind_of. simpl. rewrite !rev_app_distr. reflexivity.
Qed.

Lemma C7_three_segment_plan_witness :
  length (segments (ex_task ["a.mp4"]
     [mkSegment (Some 10%Z) (Some 40%Z); mkSegment None (Some 5%Z); mkSegment (Some 60%Z) None]
     (JNum 2))) = 3
  /\ length (yields (cutvid_commands ex_find ex_rnd ex_abspath
       (ex_task ["a.mp4"]
          [mkSegment (Some 10%Z) (Some 40%Z); mkSegment None (Some 5%Z); mkSegment (Some 60%Z) None]
          (JNum 2)) "in" "out")) = 7.
Proof.
  assert (Hv : Forall seg_valid
     [mkSegment (Some 10%Z) (Some 40%Z); mkSegment None (Some 5%Z); mkSegment (Some 60%Z) None]).
  { repeat constructor; unfold seg_valid; simpl; lia. }
  split; [reflexivity|].
  exact (proj1 (proj2 (C7_three_segment_plan ex_find ex_rnd ex_abspath
                         (ex_task ["a.mp4"]
                            [mkSegment (Some 10%Z) (Some 40%Z); mkSegment None (Some 5%Z);
                             mkSegment (Some 60%Z) None] (JNum 2))
                         "in" "out" eq_refl eq_refl Hv) eq_refl)).
Defined.

(** ** Temporaries *)

Lemma string_app_assoc (a b c : string) : a ++ b ++ c = (a ++ b) ++ c.
Proof. induction a as [|x a IH]; simpl; [reflexivity|rewrite IH; reflexivity]. Qed.

Lemma string_app_length (a b : string) :
  String.length (a ++ b) = String.length a + String.length b.
Proof. induction a as [|x a IH]; simpl; [reflexivity|rewrite IH; reflexivity]. Qed.

Lemma suffixed_intro (base x : string) : x <> "" -> suffixed base (base ++ x).
Proof. intros H. exists x. auto. Qed.

Lemma suffixed_app (base p y : string) : suffixed base p -> suffixed base (p ++ y).
Proof.
  intros (x & Hx & ->). exists (x ++ y). split.
  - destruct x; [contradiction|discriminate].
  - symmetry. apply string_app_assoc.
Qed.

Lemma suffixed_neq (base p : string) : suffixed base p -> p <> base.
Proof.
  intros (x & Hx & ->) Heq. apply (f_equal String.length) in Heq.
  rewrite string_app_length in Heq. destruct x; [contradiction|simpl in Heq; lia].
Qed.

Lemma startswith_slash_app (b x : string) :
  startswith "/" x = false -> startswith "/" (b ++ x) = startswith "/" b.
Proof.
  intros Hx. destruct b as [|c b]; [exact Hx|].
  unfold startswith; cbn [String.prefix append].
  destruct (ascii_dec "/" c); [destruct b, x; reflexivity|reflexivity].
Qed.

Lemma path_join_app (a b x : string) :
  startswith "/" x = false -> path_join a (b ++ x) = path_join a b ++ x.
Proof.
  intros Hx. unfold path_join. rewrite (startswith_slash_app b x Hx).
  destruct (startswith "/" b); [reflexivity|].
  destruct ((a =? "") || endswith "/" a); rewrite !string_app_assoc; reflexivity.
Qed.

Lemma tempname_no_slash (rnd y : string) :
  tempname_ok rnd = true -> startswith "/" (rnd ++ "." ++ y) = false.
Proof.
  destruct rnd as [|c r]; [reflexivity|]. intros H. simpl in H.
  apply andb_prop in H as [Hc _].
  unfold startswith; cbn [String.prefix append].
  destruct (ascii_dec "/" c) as [<-|]; [discriminate Hc|reflexivity].
Qed.

(** The [tmp_run] calculus. *)

Lemma tmp_ret {A} (base : string) (a : A) (Q : A -> Prop) : Q a -> tmp_run base (gret a) Q.
Proof. intros H. split; [constructor|]. intros b Hb. inversion Hb. subst. exact H. Qed.

Lemma tmp_raise {A} (base : string) (e : exn) (Q : A -> Prop) : tmp_run base (graise e) Q.
Proof. split; [constructor|discriminate]. Qed.

Lemma tmp_bind {A B} (base : string) (m : G A) (k : A -> G B) Q R :
  tmp_run base m Q -> (forall a, Q a -> tmp_run base (k a) R) -> tmp_run base (gbind m k) R.
Proof.
  destruct m as [acts [e|a]]; simpl; intros [F HQ] Hk.
  - split; [exact F|discriminate].
  - specialize (Hk a (HQ a eq_refl)). destruct (k a) as [acts' r]. destruct Hk as [F' HR].
    split; [apply Forall_app; split; assumption|exact HR].
Qed.

Lemma tmp_register (base p : string) : suffixed base p -> tmp_run base (register p) (fun _ => True).
Proof. intros H. split; [constructor; [exact H|constructor]|auto]. Qed.

Lemma tmp_write (base p s : string) : suffixed base p -> tmp_run base (write p s) (fun _ => True).
Proof. intros H. split; [constructor; [exact H|constructor]|auto]. Qed.

Lemma tmp_yield (base : string) (c : cmd) :
  suffixed base (target c) -> tmp_run base (yield c) (fun _ => True).
Proof. intros H. split; [constructor; [exact H|constructor]|auto]. Qed.

Lemma tmp_assert (base : string) (b : bool) : tmp_run base (gassert b) (fun _ => True).
Proof. unfold gassert. destruct b; [apply tmp_ret; exact I|apply tmp_raise]. Qed.

Lemma tmp_gindex0 (base : string) (l : list string) : tmp_run base (gindex0 l) (fun _ => True).
Proof. destruct l; [apply tmp_raise|apply tmp_ret; exact I]. Qed.

Lemma tmp_glast (base : string) (l : list string) : tmp_run base (glast l) (fun _ => True).
Proof. destruct l; [apply tmp_raise|apply tmp_ret; exact I]. Qed.

Lemma tmp_segment_opts (base : string) (s : Segment) :
  tmp_run base (segment_opts s) (fun _ => True).
Proof.
  unfold segment_opts. destruct (start s), (end_ s);
    try (apply tmp_ret; exact I).
  eapply tmp_bind; [apply tmp_assert|]. intros. apply tmp_ret. exact I.
Qed.

Lemma target_app (l : list string) (x : string) : target (l ++ [x])%list = x.
Proof. unfold target. apply last_last. Qed.

Lemma target_app_cons (l m : list string) (a : string) :
  target (l ++ a :: m)%list = target (a :: m).
Proof.
  unfold target. induction l as [|b l IH]; [reflexivity|].
  rewrite <- app_comm_cons. simpl. rewrite IH. destruct l; reflexivity.
Qed.

Lemma tmp_concat_cmd (base : string) (in_fns : list string) (out_fn : string) :
  suffixed base out_fn -> tmp_run base (concat_cmd in_fns out_fn) (fun c => target c = out_fn).
Proof.
  intros H. unfold concat_cmd.
  eapply tmp_bind; [apply tmp_register, suffixed_app, H|]. intros _ _.
  eapply tmp_bind; [apply tmp_write, suffixed_app, H|]. intros _ _.
  apply tmp_ret. reflexivity.
Qed.

Lemma tmp_segment_loop (input0 base ext : string) (segs : list Segment) :
  forall n files opts,
  tmp_run base (segment_loop input0 base ext n segs files opts) (fun _ => True).
Proof.
  induction segs as [|s segs IH]; intros n files opts; cbn [segment_loop].
  - apply tmp_ret. exact I.
  - assert (Hs : suffixed base (base ++ ".segment" ++ fmt_d (Z.of_nat n) ++ ext))
      by (apply suffixed_intro; discriminate).
    eapply tmp_bind; [apply tmp_register, Hs|]. intros _ _.
    eapply tmp_bind; [apply tmp_segment_opts|]. intros o _.
    eapply tmp_bind; [apply tmp_register, Hs|]. intros _ _.
    eapply tmp_bind; [apply tmp_yield; rewrite app_assoc, target_app_cons; exact Hs|].
    intros _ _. apply IH.
Qed.

Lemma shape_bind {A} (base : string) (final : cmd) (m : G A) (k : A -> G bool) Q :
  tmp_run base m Q -> (forall a, Q a -> plan_shape base final (k a)) ->
  plan_shape base final (gbind m k).
Proof.
  destruct m as [acts [e|a]]; simpl; intros [F HQ] Hk.
  - left. split; [exact F|discriminate].
  - specialize (Hk a (HQ a eq_refl)). destruct (k a) as [acts' r].
    destruct Hk as [[F' N]|(pre & Heq & F' & Hr)]; simpl in *.
    + left. split; [apply Forall_app; split; assumption|exact N].
    + right. exists (acts ++ pre)%list. subst acts'.
      split; [apply app_assoc|split; [apply Forall_app; split; assumption|exact Hr]].
Qed.

Lemma shape_final (base : string) (final : cmd) :
  plan_shape base final (gbind (yield final) (fun _ => gret false)).
Proof. right. exists []. simpl. auto. Qed.

Lemma shape_true (base : string) (final : cmd) : plan_shape base final (gret true).
Proof. left. split; [constructor|discriminate]. Qed.

Lemma part_suffixed (vt : VideoTask) (outdir : string) :
  suffixed (out_path vt outdir) (part_path vt outdir).
Proof. apply suffixed_intro. discriminate. Qed.

Lemma mkstemp_suffixed (vt : VideoTask) (outdir rnd : string) :
  tempname_ok rnd = true ->
  suffixed (out_path vt outdir) (path_join outdir (output_file vt ++ rnd ++ ".concat_list.txt")).
Proof.
  intros H. rewrite path_join_app by (apply (tempname_no_slash rnd "concat_list.txt" H)).
  apply suffixed_intro. destruct rnd; discriminate.
Qed.

Ltac sfx :=
  first [ apply part_suffixed
        | apply suffixed_intro; discriminate
        | apply mkstemp_suffixed; assumption ].

Ltac tmp_yield_lit := apply tmp_yield; cbn [target last]; sfx.

(** Every path the [try] block registers, writes or runs a command on is a
    temporary of the destination, except a last rename of the [.part] file
    to the destination right before a [return]. *)
Lemma cutvid_try_shape (ff : string -> string -> string) (rnd : string)
    (abs : string -> string) (vt : VideoTask) (indir outdir : string) :
  tempname_ok rnd = true -> abs outdir = outdir ->
  plan_shape (out_path vt outdir) (final_rename vt outdir) (cutvid_try ff rnd abs vt indir outdir).
Proof.
  intros Hrnd Habs. unfold cutvid_try, final_rename. cbv zeta.
  destruct (Nat.ltb 1 (length (segments vt))).
  - eapply shape_bind with (Q := fun _ => True).
    { destruct (Nat.ltb 1 _).
      - eapply tmp_bind; [apply tmp_register; sfx|intros _ _].
        eapply tmp_bind; [apply tmp_concat_cmd; sfx|intros c Hc].
        eapply tmp_bind; [apply tmp_yield; rewrite Hc; sfx|intros _ _].
        apply tmp_ret. exact I.
      - apply tmp_gindex0. }
    intros _ _.
    eapply shape_bind with (Q := fun _ => True); [apply tmp_segment_loop|].
    intros [sf fo] _. cbv beta iota.
    eapply shape_bind; [apply tmp_concat_cmd; sfx|intros c Hc].
    eapply shape_bind; [apply tmp_yield; rewrite Hc; sfx|intros _ _].
    eapply shape_bind with (Q := fun _ => True).
    { destruct (json_truthy _).
      - eapply tmp_bind; [tmp_yield_lit|intros _ _].
        eapply tmp_bind; [apply tmp_register; sfx|intros _ _].
        apply tmp_yield. rewrite app_assoc, target_app_cons. cbn [target last]. sfx.
      - apply tmp_ret. exact I. }
    intros _ _. apply shape_final.
  - eapply shape_bind with (Q := fun _ => True); [apply tmp_assert|intros _ _].
    eapply shape_bind with (Q := fun _ => True).
    { destruct (segments vt); [apply tmp_raise|apply tmp_ret; exact I]. }
    intros seg _.
    destruct (_ && _ && _).
    + eapply shape_bind; [tmp_yield_lit|intros _ _]. apply shape_final.
    + eapply shape_bind with (Q := fun _ => True).
      { destruct (truthy_time _).
        - eapply tmp_bind; [apply tmp_register; sfx|intros _ _].
          eapply tmp_bind; [apply tmp_gindex0|intros i0 _].
          eapply tmp_bind; [tmp_yield_lit|intros _ _].
          apply tmp_ret. exact I.
        - apply tmp_ret. exact I. }
      intros i1 _.
      eapply shape_bind with (Q := fun _ => True).
      { destruct (truthy_time _).
        - eapply tmp_bind; [apply tmp_register; sfx|intros _ _].
          eapply tmp_bind; [apply tmp_glast|intros il _].
          eapply tmp_bind; [tmp_yield_lit|intros _ _].
          apply tmp_ret. exact I.
        - apply tmp_ret. exact I. }
      intros i2 _.
      destruct (_ =? 1)%nat.
      * eapply shape_bind; [tmp_yield_lit|intros _ _]. apply shape_true.
      * eapply shape_bind; [apply tmp_write; rewrite Habs; sfx|intros _ _].
        eapply shape_bind; [apply tmp_register; rewrite Habs; sfx|intros _ _].
        eapply shape_bind; [apply tmp_write; rewrite Habs; sfx|intros _ _].
        eapply shape_bind; [tmp_yield_lit|intros _ _]. apply shape_true.
Qed.

Lemma yields_app (a b : list action) : yields (a ++ b) = (yields a ++ yields b)%list.
Proof. induction a as [|x a IH]; [reflexivity|destruct x; simpl; rewrite ?IH; reflexivity]. Qed.

Lemma tmp_yields (base : string) (acts : list action) :
  Forall (tmp_action base) acts -> Forall (fun c => suffixed base (target c)) (yields acts).
Proof.
  induction 1 as [|a acts Ha _ IH]; [constructor|].
  destruct a; simpl in *; try constructor; auto.
Qed.

Lemma tmp_in_write (base : string) (acts : list action) (p s : string) :
  Forall (tmp_action base) acts -> In (AWrite p s) acts -> suffixed base p.
Proof.
  intros F Hin. rewrite Forall_forall in F. exact (F _ Hin).
Qed.

Lemma tmp_no_raise (base : string) (acts : list action) (e : exn) :
  Forall (tmp_action base) acts -> ~ In (ARaise e) acts.
Proof.
  intros F Hin. rewrite Forall_forall in F. exact (F _ Hin).
Qed.

Lemma in_trace_inv (a : action) (acts tail : list action) :
  In a (acts ++ AFinally :: tail)%list -> In a acts \/ a = AFinally \/ In a tail.
Proof. rewrite in_app_iff. simpl. intros [H|[H|H]]; auto. Qed.

(** C1: in the trace of [cutvid_commands], every command but a last
    rename of the [.part] file to the destination runs on a temporary,
    i.e. the destination followed by a non-empty suffix (in particular
    not the destination itself), and so does every file the generator
    writes itself.  The rename comes last, and is present exactly when no
    exception ends the trace.  [mkstemp]'s directory is taken to be
    absolute already, as the one [main] passes is, and its random name
    part is drawn from [tempfile]'s alphabet. *)
Theorem C1_only_final_rename_targets_destination
    (find_file : string -> string -> string) (rnd : string) (abspath : string -> string)
    (vt : VideoTask) (indir outdir : string)
    (Hrnd : tempname_ok rnd = true) (Habs : abspath outdir = outdir) :
  let T := cutvid_commands find_file rnd abspath vt indir outdir in
  target (final_rename vt outdir) = out_path vt outdir /\
  (forall p s, In (AWrite p s) T -> suffixed (out_path vt outdir) p) /\
  exists pre,
    Forall (fun c => suffixed (out_path vt outdir) (target c)
                     /\ target c <> out_path vt outdir) pre /\
    ((yields T = (pre ++ [final_rename vt outdir])%list /\ forall e, ~ In (ARaise e) T)
     \/ (yields T = pre /\ exists e, In (ARaise e) T)).
Proof.
  intros T. split; [reflexivity|]. subst T. unfold cutvid_commands.
  pose proof (cutvid_try_shape find_file rnd abspath vt indir outdir Hrnd Habs) as Hs.
  revert Hs. destruct (cutvid_try find_file rnd abspath vt indir outdir) as [acts r].
  intros Hs. cbv beta iota.
  assert (Hsf : forall l, Forall (fun c => suffixed (out_path vt outdir) (target c)) l ->
            Forall (fun c => suffixed (out_path vt outdir) (target c)
                             /\ target c <> out_path vt outdir) l).
  { intros l F. eapply Forall_impl; [|exact F]. intros c Hc. split; [exact Hc|].
    apply suffixed_neq, Hc. }
  destruct Hs as [[F N]|(pre & Heq & F & Hr)]; simpl in *.
  - split.
    { intros p s Hin. apply in_trace_inv in Hin as [Hin|[Hin|Hin]];
        [exact (tmp_in_write _ _ _ _ F Hin)|discriminate|].
      destruct r as [e|[|]]; simpl in Hin; intuition discriminate. }
    exists (yields acts). split; [apply Hsf, tmp_yields, F|].
    rewrite yields_app. destruct r as [e|[|]]; simpl.
    + right. rewrite app_nil_r. split; [reflexivity|].
      exists e. apply in_app_iff. right. simpl. auto.
    + left. split; [reflexivity|]. intros e Hin.
      apply in_trace_inv in Hin as [Hin|[Hin|Hin]];
        [exact (tmp_no_raise _ _ _ F Hin)|discriminate|].
      simpl in Hin. destruct Hin as [Hin|[]]; discriminate.
    + contradiction N. reflexivity.
  - subst acts r. simpl. rewrite <- app_assoc. simpl. split.
    { intros p s Hin. apply in_app_iff in Hin as [Hin|Hin];
        [exact (tmp_in_write _ _ _ _ F Hin)|].
      simpl in Hin. destruct Hin as [Hin|[Hin|[]]]; discriminate. }
    exists (yields pre). split; [apply Hsf, tmp_yields, F|].
    left. rewrite yields_app. simpl. split; [reflexivity|].
    intros e Hin. apply in_app_iff in Hin as [Hin|Hin];
      [exact (tmp_no_raise _ _ _ F Hin)|].
    simpl in Hin. destruct Hin as [Hin|[Hin|[]]]; discriminate.
Qed.

Lemma C1_only_final_rename_targets_destination_witness :
  tempname_ok ex_rnd = true /\ ex_abspath "/srv/uploading" = "/srv/uploading" /\
  (let T := cutvid_commands ex_find ex_rnd ex_abspath
              (ex_task ["a.mp4"; "b.mp4"] [mkSegment (Some 5%Z) (Some 90%Z)] JNull)
              "in" "/srv/uploading" in
   let vt := ex_task ["a.mp4"; "b.mp4"] [mkSegment (Some 5%Z) (Some 90%Z)] JNull in
   target (final_rename vt "/srv/uploading") = out_path vt "/srv/uploading" /\
   (forall p s, In (AWrite p s) T -> suffixed (out_path vt "/srv/uploading") p) /\
   exists pre,
     Forall (fun c => suffixed (out_path vt "/srv/uploading") (target c)
                      /\ target c <> out_path vt "/srv/uploading") pre /\
     ((yields T = (pre ++ [final_rename vt "/srv/uploading"])%list /\ forall e, ~ In (ARaise e) T)
      \/ (yields T = pre /\ exists e, In (ARaise e) T))).
Proof.
  split; [reflexivity|]. split; [reflexivity|].
  exact (C1_only_final_rename_targets_destination ex_find ex_rnd ex_abspath
           (ex_task ["a.mp4"; "b.mp4"] [mkSegment (Some 5%Z) (Some 90%Z)] JNull)
           "in" "/srv/uploading" eq_refl eq_refl).
Defined.

(** ** Cleanup *)

Lemma mem_false (p : string) (fs : list string) : mem p fs = false -> ~ In p fs.
Proof.
  unfold mem. intros H Hin.
  assert (existsb (String.eqb p) fs = true)
    by (apply existsb_exists; exists p; split; [exact Hin|apply String.eqb_refl]).
  congruence.
Qed.

Lemma mem_true (p : string) (fs : list string) : mem p fs = true -> In p fs.
Proof.
  unfold mem. intros H. apply existsb_exists in H as (q & Hq & Heq).
  apply String.eqb_eq in Heq. subst. exact Hq.
Qed.

Lemma remove_path_in (p q : string) (fs : list string) :
  In q (remove_path p fs) -> In q fs /\ q <> p.
Proof.
  unfold remove_path. rewrite filter_In. intros [H1 H2]. split; [exact H1|].
  intros ->. rewrite String.eqb_refl in H2. discriminate.
Qed.

Lemma cleanup_incl (rmf : string -> bool) (reg : list string) :
  forall fs fs' err, cleanup rmf reg fs = (fs', err) -> incl fs' fs.
Proof.
  induction reg as [|a reg IH]; simpl; intros fs fs' err H.
  - inversion H. subst. apply incl_refl.
  - destruct (mem a fs); [destruct (rmf a)|].
    + inversion H. subst. apply incl_refl.
    + intros q Hq. apply (IH _ _ _ H) in Hq. apply remove_path_in in Hq. tauto.
    + exact (IH _ _ _ H).
Qed.

(** When the loop of the [finally] clause ends normally, no registered
    path exists. *)
Lemma cleanup_none (rmf : string -> bool) (reg : list string) :
  forall fs fs', cleanup rmf reg fs = (fs', None) -> forall p, In p reg -> ~ In p fs'.
Proof.
  induction reg as [|a reg IH]; simpl; intros fs fs' H p Hp; [contradiction|].
  destruct (mem a fs) eqn:Em; [destruct (rmf a)|].
  - congruence.
  - destruct Hp as [<-|Hp].
    + intros Hin. apply (cleanup_incl _ _ _ _ _ H) in Hin. apply remove_path_in in Hin. tauto.
    + exact (IH _ _ H p Hp).
  - destruct Hp as [<-|Hp].
    + intros Hin. apply (cleanup_incl _ _ _ _ _ H) in Hin. exact (mem_false _ _ Em Hin).
    + exact (IH _ _ H p Hp).
Qed.

(** A removal error is only raised for a registered path that exists (an
    absent one, ENOENT, is skipped) and whose removal fails. *)
Lemma cleanup_some (rmf : string -> bool) (reg : list string) :
  forall fs fs' p, cleanup rmf reg fs = (fs', Some p) -> In p reg /\ rmf p = true /\ In p fs'.
Proof.
  induction reg as [|a reg IH]; simpl; intros fs fs' p H; [congruence|].
  destruct (mem a fs) eqn:Em; [destruct (rmf a) eqn:Er|].
  - inversion H. subst. auto using mem_true.
  - destruct (IH _ _ _ H) as (? & ? & ?). auto.
  - destruct (IH _ _ _ H) as (? & ? & ?). auto.
Qed.

Lemma existsb_finally (acts tail : list action) :
  existsb is_finally (acts ++ AFinally :: tail) = true.
Proof. rewrite existsb_app. simpl. apply orb_true_r. Qed.

(** Running the [try] part of a trace: it reaches the [finally] clause
    with only [P]-paths registered, or a command fails and closing the
    generator runs the loop of the [finally] clause. *)
Lemma run_try (exec : cmd -> list string -> bool * list string) (rmf : string -> bool)
    (P : string -> Prop) (tail : list action) :
  forall acts fs reg, Forall (act_ok P) acts -> Forall P reg ->
  (exists fs1 reg1, Forall P reg1 /\
     run exec rmf (acts ++ AFinally :: tail) fs reg = run exec rmf (AFinally :: tail) fs1 reg1)
  \/ (exists c fs1 reg1,
     run exec rmf (acts ++ AFinally :: tail) fs reg
     = (fst (cleanup rmf reg1 fs1), reg1, OAborted c (snd (cleanup rmf reg1 fs1)))).
Proof.
  induction acts as [|a acts IH]; intros fs reg Fa Fr.
  - left. exists fs, reg. auto.
  - inversion Fa as [|? ? Ha Fa']. subst. destruct a; simpl in Ha |- *.
    + apply IH; [exact Fa'|apply Forall_app; split; auto].
    + apply IH; auto.
    + destruct (exec c fs) as [[|] fs'].
      * apply IH; auto.
      * right. exists c, fs', reg. unfold close. rewrite existsb_finally.
        destruct (cleanup rmf reg fs'); reflexivity.
    + contradiction.
    + contradiction.
Qed.

Lemma tmp_act_ok (base : string) (a : action) :
  tmp_action base a -> act_ok (suffixed base) a.
Proof. destruct a; simpl; auto. Qed.

(** C2 (amended): whatever the runner does (as long as a command creates
    no file but its target), once the consumer in [main] stops, either no
    path of [tmpfiles] is left, or the removal of some registered path
    that exists failed (removing an absent one never fails).  That failure
    is the exception the run raises when the [finally] clause runs at the
    end of the [try] block or after an exception of the generator; when a
    failed command aborted the run, closing the generator only reports it
    as ignored, and [main]'s [OSError] for the command is what propagates. *)
Theorem C2_temporaries_removed_or_failure_reported
    (exec : cmd -> list string -> bool * list string) (rm_fails : string -> bool)
    (find_file : string -> string -> string) (rnd : string) (abspath : string -> string)
    (vt : VideoTask) (indir outdir : string) (fs : list string)
    (Hrnd : tempname_ok rnd = true) (Habs : abspath outdir = outdir)
    (Hexec : forall c fs0 p, In p (snd (exec c fs0)) -> In p fs0 \/ p = target c) :
  let '(fs', reg, o) :=
    run exec rm_fails (cutvid_commands find_file rnd abspath vt indir outdir) fs [] in
  (forall p, In p reg -> ~ In p fs')
  \/ (exists p, In p reg /\ rm_fails p = true /\ In p fs' /\
        (o = ORaised (RemoveError p) \/ exists c, o = OAborted c (Some p))).
Proof.
  unfold cutvid_commands.
  pose proof (cutvid_try_shape find_file rnd abspath vt indir outdir Hrnd Habs) as Hs.
  revert Hs. destruct (cutvid_try find_file rnd abspath vt indir outdir) as [acts r].
  intros Hs. cbv beta iota.
  assert (Hok : Forall (act_ok (suffixed (out_path vt outdir))) acts).
  { destruct Hs as [[F _]|(pre & Heq & F & _)]; simpl in *.
    - eapply Forall_impl; [apply tmp_act_ok|exact F].
    - subst acts. apply Forall_app. split; [eapply Forall_impl; [apply tmp_act_ok|exact F]|].
      repeat constructor. }
  match goal with |- context [run exec rm_fails (acts ++ AFinally :: ?t)%list fs []] =>
    set (tail := t) end.
  destruct (run_try exec rm_fails _ tail acts fs [] Hok (Forall_nil _))
    as [(fs1 & reg1 & Fr & ->)|(c & fs1 & reg1 & ->)].
  - cbn [run]. destruct (cleanup rm_fails reg1 fs1) as [fs2 [p|]] eqn:Ec.
    + right. exists p. destruct (cleanup_some _ _ _ _ _ Ec) as (? & ? & ?). auto.
    + pose proof (cleanup_none _ _ _ _ Ec) as Hn.
      subst tail. destruct r as [e|[|]]; cbn [run]; [left; exact Hn| |left; exact Hn].
      destruct (exec _ fs2) as [ok fs3] eqn:Ee.
      assert (Hf : forall p, In p reg1 -> ~ In p fs3).
      { intros p Hp Hin.
        pose proof (Hexec ["mv"; "--"; part_path vt outdir; out_path vt outdir] fs2 p) as Hx.
        rewrite Ee in Hx.
        cbn [snd target last] in Hx. destruct (Hx Hin) as [H2|H2].
        - exact (Hn p Hp H2).
        - rewrite Forall_forall in Fr. exact (suffixed_neq _ _ (Fr p Hp) H2). }
      destruct ok; [left; exact Hf|]. unfold close. simpl. left. exact Hf.
  - cbn beta iota. destruct (cleanup rm_fails reg1 fs1) as [fs2 [p|]] eqn:Ec; simpl.
    + right. exists p. destruct (cleanup_some _ _ _ _ _ Ec) as (? & ? & ?).
      repeat split; auto. right. exists c. reflexivity.
    + left. exact (cleanup_none _ _ _ _ Ec).
Qed.

Lemma C2_temporaries_removed_or_failure_reported_witness :
  tempname_ok ex_rnd = true /\ ex_abspath "/srv/up" = "/srv/up" /\
  (forall c fs0 p, In p (snd (ex_exec c fs0)) -> In p fs0 \/ p = target c) /\
  (let '(fs', reg, o) :=
     run ex_exec (fun _ => false)
       (cutvid_commands ex_find ex_rnd ex_abspath
          (ex_task ["a.mp4"] [mkSegment (Some 5%Z) None] JNull) "in" "/srv/up") [] [] in
   (forall p, In p reg -> ~ In p fs')
   \/ (exists p, In p reg /\ (fun _ : string => false) p = true /\ In p fs' /\
         (o = ORaised (RemoveError p) \/ exists c, o = OAborted c (Some p)))).
Proof.
  assert (He : forall c fs0 p, In p (snd (ex_exec c fs0)) -> In p fs0 \/ p = target c).
  { intros c fs0 p [H|H]; auto. }
  split; [reflexivity|]. split; [reflexivity|]. split; [exact He|].
  exact (C2_temporaries_removed_or_failure_reported ex_exec (fun _ => false) ex_find ex_rnd
           ex_abspath (ex_task ["a.mp4"] [mkSegment (Some 5%Z) None] JNull) "in" "/srv/up" []
           eq_refl eq_refl He).
Defined.

(** C2, counterexample: the [cp] of a single-segment task fails, then the
    removal of the head-trimmed temporary fails while the generator is
    closed.  The run ends with [main]'s error for the [cp] (the removal
    failure is not propagated) and the temporary is left on disk. *)
Lemma C2_abort_masks_removal_failure :
  run ex_exec_cp_fails (fun _ => true)
    (cutvid_commands ex_find ex_rnd ex_abspath
       (ex_task ["a.mp4"] [mkSegment (Some 5%Z) None] JNull) "in" "/srv/up") [] []
  = (["/srv/up/talk.mp4.first_part.mp4"], ["/srv/up/talk.mp4.first_part.mp4"],
     OAborted ["cp"; "--"; "/srv/up/talk.mp4.first_part.mp4"; "/srv/up/talk.mp4.part.mp4"]
              (Some "/srv/up/talk.mp4.first_part.mp4")).
Proof. vm_compute. reflexivity. Qed.

(** ** Tasks produced by the parser *)

Lemma rbind_ok_inv {A B} (m : res A) (k : A -> res B) (b : B) :
  rbind m k = ROk b -> exists a, m = ROk a /\ k a = ROk b.
Proof. destruct m; simpl; intros H; [eauto|discriminate|discriminate]. Qed.

Lemma split_on_nonempty (sep : ascii) (s : string) : split_on sep s <> [].
Proof.
  destruct s as [|c r]; simpl; [discriminate|].
  destruct (Ascii.eqb c sep); [discriminate|]. destruct (split_on sep r); discriminate.
Qed.

Lemma list_ascii_app (s t : string) :
  list_ascii_of_string (s ++ t) = (list_ascii_of_string s ++ list_ascii_of_string t)%list.
Proof. induction s as [|c s IH]; simpl; [reflexivity|rewrite IH; reflexivity]. Qed.

Lemma string_of_list_ascii_app (l1 l2 : list ascii) :
  string_of_list_ascii (l1 ++ l2) = string_of_list_ascii l1 ++ string_of_list_ascii l2.
Proof. induction l1 as [|c l IH]; simpl; [reflexivity|rewrite IH; reflexivity]. Qed.

Lemma rev_string_app (s t : string) : rev_string (s ++ t) = rev_string t ++ rev_string s.
Proof.
  unfold rev_string. rewrite list_ascii_app, rev_app_distr. apply string_of_list_ascii_app.
Qed.

Lemma prefix_app (p y : string) : String.prefix p (p ++ y) = true.
Proof.
  induction p as [|c p IH]; [destruct y; reflexivity|].
  cbn [String.prefix append]. destruct (ascii_dec c c) as [_|n]; [exact IH|contradiction].
Qed.

Lemma endswith_app (x s : string) : endswith x (s ++ x) = true.
Proof. unfold endswith. rewrite rev_string_app. apply prefix_app. Qed.

Lemma has_video_ext_mp4 (s : string) : has_video_ext (s ++ ".mp4") = true.
Proof. unfold has_video_ext. simpl existsb. rewrite endswith_app. reflexivity. Qed.

Lemma map_res_length {A B} (f : A -> res B) (l : list A) :
  forall l', map_res f l = ROk l' -> length l' = length l.
Proof.
  induction l as [|x l IH]; simpl; intros l' H.
  - inversion H. reflexivity.
  - apply rbind_ok_inv in H as (y & _ & H). apply rbind_ok_inv in H as (ys & Hys & H).
    inversion H. simpl. rewrite (IH _ Hys). reflexivity.
Qed.

Lemma parse_segments_in_nonempty (v : json) (segs : list Segment) :
  json_truthy v = true -> parse_segments_in v = ROk segs -> segs <> [].
Proof.
  destruct v; simpl; try discriminate. intros Ht H ->.
  apply map_res_length in H. destruct l; [discriminate Ht|discriminate H].
Qed.

Lemma parse_task_line_well_formed (json_loads : string -> option json) (line : string)
    (t : VideoTask) :
  parse_task_line json_loads line = ROk t ->
  input_files t <> [] /\ segments t <> [] /\ has_video_ext (output_file t) = true.
Proof.
  unfold parse_task_line. destruct (parse_tokens line) as [tokens [| e |]]; try discriminate.
  cbv zeta. intros H.
  repeat match type of H with
         | rbind _ _ = ROk _ => apply rbind_ok_inv in H as (? & ? & H)
         end.
  inversion H; subst t; simpl. split; [apply split_on_nonempty|split].
  - match goal with Hs : (if json_truthy ?v then _ else _) = ROk _ |- _ =>
      destruct (json_truthy v) eqn:Et; [|inversion Hs; discriminate] end.
    match goal with Hs : rbind _ _ = ROk _ |- _ =>
      apply rbind_ok_inv in Hs as (? & _ & Hs);
      apply rbind_ok_inv in Hs as (? & _ & Hs);
      exact (parse_segments_in_nonempty _ _ Et Hs) end.
  - destruct (has_video_ext (nth 1 tokens "")) eqn:E; [exact E|apply has_video_ext_mp4].
Qed.

(** Every task [parse_video_tasks] yields has at least one input file and
    at least one segment, and its output file name ends in [.mp4], [.webm]
    or [.ogv] ([.mp4] is appended to any other name). *)
Theorem parse_video_tasks_well_formed (json_loads : string -> option json)
    (lines : list string) :
  Forall (fun t => input_files t <> [] /\ segments t <> []
                   /\ has_video_ext (output_file t) = true)
         (fst (parse_video_tasks json_loads lines)).
Proof.
  induction lines as [|line rest IH]; simpl; [constructor|].
  destruct ((strip line =? "") || startswith "#" line); [exact IH|].
  destruct (parse_task_line json_loads line) eqn:E; simpl; try constructor.
  destruct (parse_video_tasks json_loads rest) as [ts o]. simpl in *.
  constructor; [exact (parse_task_line_well_formed _ _ _ E)|exact IH].
Qed.

(** The [assert_only] calculus. *)














(** ** A run in which every command succeeds *)





(** ** The audio filter of the multi-segment path *)

Lemma gbind_ok {A B} (acts : list action) (a : A) (k : A -> G B) :
  gbind (acts, inr a) k = ((acts ++ fst (k a))%list, snd (k a)).
Proof. simpl. destruct (k a). reflexivity. Qed.

(** The multi-segment loop returns the options of its last segment. *)
Lemma segment_loop_last_opts (input0 base ext : string) (segs : list Segment) :
  Forall seg_valid segs ->
  forall n files opts o_last,
  (segs = [] /\ o_last = opts)
  \/ (segs <> [] /\ segment_opts (last segs (mkSegment None None)) = ([], inr o_last)) ->
  exists acts files', segment_loop input0 base ext n segs files opts = (acts, inr (files', o_last)).
Proof.
  induction segs as [|s segs IH]; intros Hv n files opts o_last Ho; cbn [segment_loop].
  - destruct Ho as [[_ ->]|[H _]]; [|contradiction]. exists [], files. reflexivity.
  - inversion Hv as [|? ? Hs Hv']. subst.
    destruct (segment_opts_valid s Hs) as [o1 Eo].
    unfold register. rewrite gbind_ok. cbv beta. rewrite Eo, gbind_ok. cbv beta.
    rewrite gbind_ok. cbv beta. unfold yield. rewrite gbind_ok. cbv beta.
    destruct (IH Hv' (S n) (files ++ [(base ++ ".segment" ++ fmt_d (Z.of_nat n) ++ ext)%string])%list
              o1 o_last)
      as (acts & files' & E).
    { destruct segs as [|s' segs'].
      - left. split; [reflexivity|]. destruct Ho as [[H _]|[_ H]]; [discriminate|].
        simpl in H. rewrite Eo in H. congruence.
      - right. split; [discriminate|]. destruct Ho as [[H _]|[_ H]]; [discriminate|].
        exact H. }
    rewrite E. simpl. eexists; eexists; reflexivity.
Qed.

(** With several segments and a truthy [boost_volume] that is an integer
    or a string, the last three commands are the rename of the [.part]
    file to the filter input, the volume filter with the options of the
    last segment only, and the final rename; the filter's gain text is the
    integer in decimal or the string itself. *)
Theorem boost_filter_reuses_last_segment_opts (find_file : string -> string -> string)
    (rnd : string) (abspath : string -> string) (vt : VideoTask) (indir outdir : string)
    (o : list string)
    (Hsegs : 1 < length (segments vt)) (Hins : input_files vt <> [])
    (Hvalid : Forall seg_valid (segments vt))
    (Hboost : json_truthy (boost_volume vt) = true)
    (Hlast : segment_opts (last (segments vt) (mkSegment None None)) = ([], inr o))
    (gain : string)
    (Hgain : (exists z, boost_volume vt = JNum z /\ gain = fmt_d z)
             \/ boost_volume vt = JStr gain) :
  let fi := (out_path vt outdir ++ ".filter_input" ++ splitext_ext (output_file vt))%string in
  exists pre,
    yields (cutvid_commands find_file rnd abspath vt indir outdir)
    = (pre ++ [["mv"; "--"; part_path vt outdir; fi];
               (["ffmpeg"; "-i"; fi; "-y"] ++ o ++
                ["-c:v"; "copy"; "-af"; ("volume=" ++ gain)%string;
                 part_path vt outdir])%list;
               ["mv"; "--"; part_path vt outdir; out_path vt outdir]])%list.
Proof.
  intros fi.
  assert (Eg : json_str (boost_volume vt) = gain)
    by (destruct Hgain as [(z & -> & ->)| ->]; reflexivity).
  rewrite <- Eg.
  unfold cutvid_commands, cutvid_try. cbv zeta.
  rewrite (proj2 (Nat.ltb_lt _ _) Hsegs).
  match goal with |- context [gbind (if Nat.ltb 1 ?l then ?x else ?y) _] =>
    assert (E1 : exists a1 v1, (if Nat.ltb 1 l then x else y) = (a1, inr v1));
    [| destruct E1 as (a1 & v1 & E1); rewrite E1 ] end.
  { destruct (input_files vt) as [|i0 [|i1 r]]; [congruence| |]; cbn; do 2 eexists; reflexivity. }
  rewrite gbind_ok. cbv beta.
  destruct (segment_loop_last_opts (hd "" (map (find_file indir) (input_files vt)))
              (out_path vt outdir) (splitext_ext (output_file vt)) (segments vt) Hvalid
              0 [] [] o) as (a2 & files & E2).
  { right. split; [|exact Hlast]. intros H. rewrite H in Hsegs. simpl in Hsegs. lia. }
  rewrite E2, gbind_ok. cbv beta iota.
  unfold concat_cmd, register, write, yield, gret. rewrite Hboost.
  cbn [gbind fst snd List.app]. rewrite !yields_app. cbn [yields List.app].
  eexists (yields a1 ++ yields a2 ++ [_])%list.
  rewrite app_nil_r, <- !app_assoc. reflexivity.
Qed.

Lemma boost_filter_reuses_last_segment_opts_witness :
  let vt := ex_task ["a.mp4"] [mkSegment (Some 5%Z) (Some 90%Z); mkSegment (Some 100%Z) None]
                    (JNum 3%Z) in
  exists pre,
    yields (cutvid_commands (fun d f => d ++ "/" ++ f) "xyz" ex_abspath vt "in" "/srv/up")
    = (pre ++ [["mv"; "--"; part_path vt "/srv/up";
                (out_path vt "/srv/up" ++ ".filter_input.mp4")%string];
               (["ffmpeg"; "-i"; (out_path vt "/srv/up" ++ ".filter_input.mp4")%string; "-y"]
                ++ ["-ss"; "100"] ++
                ["-c:v"; "copy"; "-af"; "volume=3"; part_path vt "/srv/up"])%list;
               ["mv"; "--"; part_path vt "/srv/up"; out_path vt "/srv/up"]])%list.
Proof.
  intros vt.
  apply (boost_filter_reuses_last_segment_opts _ _ _ vt "in" "/srv/up" ["-ss"; "100"]).
  - simpl. lia.
  - discriminate.
  - repeat constructor.
  - reflexivity.
  - reflexivity.
  - left. exists 3%Z. split; reflexivity.
Defined.

(** ** File lookup *)

Lemma path_join_nonempty (a b : string) : b <> "" -> path_join a b <> "".
Proof.
  intros Hb. unfold path_join.
  destruct (startswith "/" b); [exact Hb|].
  destruct ((a =? "") || endswith "/" a); destruct a; simpl; congruence.
Qed.

Lemma find_file_loop_found (basename : string) (entries : list (string * list string))
    (found : option string) :
  found_truthy found = true ->
  find_file_loop basename entries found
  = match filter (fun e => existsb (String.eqb basename) (snd e)) entries with
    | [] => inr found
    | _ => inl FileNotFoundError
    end.
Proof.
  intros Hf. induction entries as [|[path files] rest IH]; cbn [find_file_loop filter snd].
  - reflexivity.
  - destruct (existsb (String.eqb basename) files); [rewrite Hf|]; auto.
Qed.

Lemma find_file_loop_none (basename : string) (entries : list (string * list string)) :
  basename <> "" ->
  find_file_loop basename entries None
  = match filter (fun e => existsb (String.eqb basename) (snd e)) entries with
    | [] => inr None
    | [e] => inr (Some (path_join (fst e) basename))
    | _ :: _ :: _ => inl FileNotFoundError
    end.
Proof.
  intros Hb. induction entries as [|[path files] rest IH]; cbn [find_file_loop filter snd].
  - reflexivity.
  - destruct (existsb (String.eqb basename) files); [|exact IH].
    cbn [found_truthy]. rewrite find_file_loop_found.
    + cbn [fst]. destruct (filter _ rest); reflexivity.
    + cbn [found_truthy]. apply negb_true_iff, String.eqb_neq, path_join_nonempty, Hb.
Qed.

(** [find_file] returns the path of the only directory of the walk that
    has a file of the name; it raises [ValueError] when none has one and
    [FileNotFoundError] when two or more have one. *)
Theorem find_file_unique_match (walk : string -> list (string * list string))
    (root_dir basename : string) (Hb : basename <> "") :
  find_file walk root_dir basename
  = match filter (fun e => existsb (String.eqb basename) (snd e)) (walk root_dir) with
    | [] => inl (Exn ValueError)
    | [e] => inr (path_join (fst e) basename)
    | _ :: _ :: _ => inl FileNotFoundError
    end.
Proof.
  unfold find_file. rewrite find_file_loop_none by exact Hb.
  destruct (filter _ _) as [|e [|e' r]]; cbn [ebind found_truthy negb]; try reflexivity.
  pose proof (path_join_nonempty (fst e) basename Hb) as Hne.
  apply String.eqb_neq in Hne. rewrite Hne. reflexivity.
Qed.

Lemma find_file_unique_match_witness :
  "talk.mp4" <> ""
  /\ find_file (fun _ => [("/v", ["a.mp4"]); ("/v/day1", ["talk.mp4"; "b.mp4"]);
                          ("/v/day2", ["c.mp4"])]) "/v" "talk.mp4"
     = inr "/v/day1/talk.mp4".
Proof.
  split; [discriminate|].
  rewrite (find_file_unique_match _ "/v" "talk.mp4") by discriminate.
  reflexivity.
Defined.

(** ** Upload command *)

Lemma find_upload_bin_cases (which : string -> option string) :
  (find_upload_bin which = inl SystemError
   /\ forall c, In c upload_candidates -> which c = None)
  \/ (exists c output, In c upload_candidates /\ which c = Some output
                       /\ find_upload_bin which = inr (strip output)).
Proof.
  unfold find_upload_bin, upload_candidates. cbn [find_upload_bin_loop].
  destruct (which "youtube_upload") as [o1|] eqn:E1;
    [right; exists "youtube_upload", o1; simpl; auto|].
  destruct (which "youtube-upload") as [o2|] eqn:E2;
    [right; exists "youtube-upload", o2; simpl; auto|].
  destruct (which "yt-upload") as [o3|] eqn:E3;
    [right; exists "yt-upload", o3; simpl; auto|].
  left. split; [reflexivity|]. simpl. intros c [<-|[<-|[<-|[]]]]; assumption.
Qed.

Lemma calc_upload_cmd_found (which : string -> option string)
    (upload_config : list (string * json)) (title : string) (vt : VideoTask)
    (tmp_fn binpath : string) (e : error) :
  find_upload_bin which = inr binpath ->
  calc_upload_cmd which upload_config title vt tmp_fn = inl e ->
  e = Exn KeyError \/ e = PlainException.
Proof.
  intros Hb. unfold calc_upload_cmd. rewrite Hb. cbn [ebind]. unfold getitem.
  destruct (endswith _ _);
    repeat match goal with
    | |- context [dict_lookup ?c ?k] => destruct (dict_lookup c k); cbn [ebind]
    | |- context [json_truthy ?v] => destruct (json_truthy v); cbn [ebind]
    | |- context [json_eq_str ?v ?s] => destruct (json_eq_str v s); cbn [ebind]
    end; intros H; try discriminate; injection H as <-; auto.
Qed.

(** [calc_upload_cmd] raises [SystemError] exactly when none of the three
    upload programs is found, whatever the configuration. *)
Theorem calc_upload_cmd_system_error (which : string -> option string)
    (upload_config : list (string * json)) (title : string) (vt : VideoTask)
    (tmp_fn : string) :
  calc_upload_cmd which upload_config title vt tmp_fn = inl SystemError
  <-> forall c, In c upload_candidates -> which c = None.
Proof.
  destruct (find_upload_bin_cases which) as [[E Hall]|(c & o & Hc & Ho & E)].
  - split; [intros _; exact Hall|]. intros _. unfold calc_upload_cmd. rewrite E. reflexivity.
  - split.
    + intros H. destruct (calc_upload_cmd_found _ _ _ _ _ _ _ E H); discriminate.
    + intros Hall. rewrite (Hall c Hc) in Ho. discriminate.
Qed.

(** A command that [calc_upload_cmd] returns starts with the upload
    program found, [--category] and the configured category; it has the
    title right after a [-t]; and it ends with [--] and the file name. *)
Theorem calc_upload_cmd_frame (which : string -> option string)
    (upload_config : list (string * json)) (title : string) (vt : VideoTask)
    (tmp_fn : string) (cmd : list json)
    (H : calc_upload_cmd which upload_config title vt tmp_fn = inr cmd) :
  exists binpath category,
    find_upload_bin which = inr binpath
    /\ dict_lookup upload_config "category" = Some category
    /\ firstn 3 cmd = [JStr binpath; JStr "--category"; category]
    /\ skipn (length cmd - 2) cmd = [JStr "--"; JStr tmp_fn]
    /\ exists i, nth i cmd JNull = JStr "-t" /\ nth (S i) cmd JNull = JStr title.
Proof.
  unfold calc_upload_cmd in H.
  destruct (find_upload_bin which) as [e|b] eqn:Eb; cbn [ebind] in H; [discriminate|].
  exists b. unfold getitem in H.
  destruct (dict_lookup upload_config "category") as [cat|] eqn:Ec;
    [|destruct (endswith _ _); discriminate].
  exists cat. do 2 (split; [reflexivity|]).
  cbn [ebind] in H.
  destruct (endswith _ _);
    repeat match type of H with
    | context [dict_lookup ?c ?k] => destruct (dict_lookup c k); cbn [ebind] in H
    | context [json_truthy ?v] => destruct (json_truthy v); cbn [ebind] in H
    | context [json_eq_str ?v ?s] => destruct (json_eq_str v s); cbn [ebind] in H
    | context [is_not_none ?v] => destruct (is_not_none v)
    end; try discriminate; injection H as <-; cbn [List.app];
    (split; [reflexivity|]); (split; [reflexivity|]);
    solve [exists 7; split; reflexivity | exists 3; split; reflexivity].
Qed.

Lemma calc_upload_cmd_frame_witness :
  exists binpath category,
    find_upload_bin (fun c => if c =? "yt-upload" then Some "/usr/bin/yt-upload
" else None)
    = inr binpath
    /\ dict_lookup [("category", JStr "Education")] "category" = Some category
    /\ firstn 3 [JStr "/usr/bin/yt-upload"; JStr "--category"; JStr "Education";
                 JStr "-t"; JStr "talk"; JStr "--privacy"; JStr "unlisted";
                 JStr "--"; JStr "/srv/up/talk.mp4"]
       = [JStr binpath; JStr "--category"; category]
    /\ skipn (9 - 2) [JStr "/usr/bin/yt-upload"; JStr "--category"; JStr "Education";
                 JStr "-t"; JStr "talk"; JStr "--privacy"; JStr "unlisted";
                 JStr "--"; JStr "/srv/up/talk.mp4"]
       = [JStr "--"; JStr "/srv/up/talk.mp4"]
    /\ exists i, nth i [JStr "/usr/bin/yt-upload"; JStr "--category"; JStr "Education";
                 JStr "-t"; JStr "talk"; JStr "--privacy"; JStr "unlisted";
                 JStr "--"; JStr "/srv/up/talk.mp4"] JNull = JStr "-t"
       /\ nth (S i) [JStr "/usr/bin/yt-upload"; JStr "--category"; JStr "Education";
                 JStr "-t"; JStr "talk"; JStr "--privacy"; JStr "unlisted";
                 JStr "--"; JStr "/srv/up/talk.mp4"] JNull = JStr "talk".
Proof.
  apply (calc_upload_cmd_frame _ [("category", JStr "Education")] "talk"
           (mkVideoTask ["talk.mp4"] "talk.mp4" JNull [mkSegment None None] JNull
              (JStr "unlisted") (JBool true))
           "/srv/up/talk.mp4").
  vm_compute. reflexivity.
Defined.

(** With a newer upload program (its path does not end in
    [youtube_upload]), [calc_upload_cmd] fails only when the configuration
    has no [category]; in particular it accepts any privacy value. *)
Theorem calc_upload_cmd_new_errors (which : string -> option string)
    (upload_config : list (string * json)) (title : string) (vt : VideoTask)
    (tmp_fn binpath : string)
    (Hb : find_upload_bin which = inr binpath)
    (Hnew : endswith "youtube_upload" binpath = false) (e : error) :
  calc_upload_cmd which upload_config title vt tmp_fn = inl e
  <-> e = Exn KeyError /\ dict_lookup upload_config "category" = None.
Proof.
  unfold calc_upload_cmd. rewrite Hb. cbn [ebind]. rewrite Hnew. unfold getitem.
  destruct (dict_lookup upload_config "category"); cbn [ebind].
  - split; [discriminate|]. intros [_ H]; discriminate.
  - split; [intros H; injection H as <-; auto|]. intros [-> _]. reflexivity.
Qed.

Lemma calc_upload_cmd_new_errors_witness :
  calc_upload_cmd (fun c => if c =? "youtube-upload" then Some "/usr/bin/youtube-upload
" else None)
    [("email", JStr "me@example.org"); ("password", JStr "pw")] "talk"
    (mkVideoTask ["talk.mp4"] "talk.mp4" JNull [mkSegment None None] JNull
       (JStr "friends") (JBool true))
    "/srv/up/talk.mp4"
  = inl (Exn KeyError).
Proof.
  apply (calc_upload_cmd_new_errors _ _ _ _ _ "/usr/bin/youtube-upload").
  - vm_compute. reflexivity.
  - vm_compute. reflexivity.
  - split; reflexivity.
Defined.

(** With the old upload program (its path ends in [youtube_upload]),
    [calc_upload_cmd] fails with [KeyError] when the configuration lacks
    one of [category], [email] and [password], and otherwise with an
    exception exactly when the privacy is truthy and none of [public],
    [private] and [unlisted]. *)
Theorem calc_upload_cmd_old_errors (which : string -> option string)
    (upload_config : list (string * json)) (title : string) (vt : VideoTask)
    (tmp_fn binpath : string)
    (Hb : find_upload_bin which = inr binpath)
    (Hold : endswith "youtube_upload" binpath = true) (e : error) :
  calc_upload_cmd which upload_config title vt tmp_fn = inl e
  <-> (e = Exn KeyError
       /\ exists k, In k ["category"; "email"; "password"]
                    /\ dict_lookup upload_config k = None)
      \/ (e = PlainException
          /\ (forall k, In k ["category"; "email"; "password"]
                        -> dict_lookup upload_config k <> None)
          /\ json_truthy (privacy vt) = true
          /\ forall s, In s ["public"; "private"; "unlisted"]
                       -> json_eq_str (privacy vt) s = false).
Proof.
  unfold calc_upload_cmd. rewrite Hb. cbn [ebind]. rewrite Hold. unfold getitem.
  destruct (dict_lookup upload_config "category") as [c|] eqn:Ec; cbn [ebind].
  2:{ split.
      - intros H. injection H as <-. left. split; [reflexivity|].
        exists "category". simpl. auto.
      - intros [[-> _]|(_ & Hall & _)]; [reflexivity|].
        exfalso. apply (Hall "category"); simpl; auto. }
  destruct (dict_lookup upload_config "email") as [m|] eqn:Em; cbn [ebind].
  2:{ split.
      - intros H. injection H as <-. left. split; [reflexivity|].
        exists "email". simpl. auto.
      - intros [[-> _]|(_ & Hall & _)]; [reflexivity|].
        exfalso. apply (Hall "email"); simpl; auto. }
  destruct (dict_lookup upload_config "password") as [w|] eqn:Ew; cbn [ebind].
  2:{ split.
      - intros H. injection H as <-. left. split; [reflexivity|].
        exists "password". simpl. auto.
      - intros [[-> _]|(_ & Hall & _)]; [reflexivity|].
        exfalso. apply (Hall "password"); simpl; auto. }
  assert (Hkeys : forall k, In k ["category"; "email"; "password"]
                            -> dict_lookup upload_config k <> None).
  { simpl. intros k [<-|[<-|[<-|[]]]]; congruence. }
  assert (Hnokey : ~ exists k, In k ["category"; "email"; "password"]
                               /\ dict_lookup upload_config k = None).
  { intros (k & Hk & Hn). exact (Hkeys k Hk Hn). }
  destruct (json_truthy (privacy vt)) eqn:Et.
  2:{ cbn [ebind]. split; [discriminate|].
      intros [[_ Hk]|(_ & _ & H & _)]; [contradiction|discriminate]. }
  destruct (json_eq_str (privacy vt) "public") eqn:E1; cbn [ebind].
  { split; [discriminate|]. intros [[_ Hk]|(_ & _ & _ & H)]; [contradiction|].
    rewrite (H "public") in E1; [discriminate|simpl; auto]. }
  destruct (json_eq_str (privacy vt) "private") eqn:E2; cbn [ebind].
  { split; [discriminate|]. intros [[_ Hk]|(_ & _ & _ & H)]; [contradiction|].
    rewrite (H "private") in E2; [discriminate|simpl; auto]. }
  destruct (json_eq_str (privacy vt) "unlisted") eqn:E3; cbn [ebind].
  { split; [discriminate|]. intros [[_ Hk]|(_ & _ & _ & H)]; [contradiction|].
    rewrite (H "unlisted") in E3; [discriminate|simpl; auto]. }
  split.
  - intros H. injection H as <-. right. repeat split; auto.
    simpl. intros s [<-|[<-|[<-|[]]]]; assumption.
  - intros [[_ Hk]|[-> _]]; [contradiction|reflexivity].
Qed.

Lemma calc_upload_cmd_old_errors_witness :
  calc_upload_cmd (fun c => if c =? "youtube_upload" then Some "/usr/bin/youtube_upload
" else None)
    [("category", JStr "Education"); ("email", JStr "me@example.org");
     ("password", JStr "pw")] "talk"
    (mkVideoTask ["talk.mp4"] "talk.mp4" JNull [mkSegment None None] JNull
       (JStr "friends") (JBool true))
    "/srv/up/talk.mp4"
  = inl PlainException.
Proof.
  apply (calc_upload_cmd_old_errors _ _ _ _ _ "/usr/bin/youtube_upload").
  - vm_compute. reflexivity.
  - vm_compute. reflexivity.
  - right. split; [reflexivity|]. split; [|split; [reflexivity|]].
    + simpl. intros k [<-|[<-|[<-|[]]]]; discriminate.
    + simpl. intros s [<-|[<-|[<-|[]]]]; reflexivity.
Defined.

(** ** Tokenizer round trip *)

Lemma string_app_nil_r (s : string) : s ++ "" = s.
Proof. induction s as [|c s IH]; simpl; [reflexivity|rewrite IH; reflexivity]. Qed.

Definition head_ok (s : string) : bool :=
  match s with
  | String c _ => negb (is_space c)
  | EmptyString => false
  end.

Lemma head_ok_app (s u : string) : head_ok s = true -> head_ok (s ++ u) = true.
Proof. destruct s; simpl; [discriminate|auto]. Qed.

Lemma lstrip_head_ok (s : string) : head_ok s = true -> lstrip s = s.
Proof.
  destruct s as [|c r]; simpl; [discriminate|].
  intros H. apply negb_true_iff in H. rewrite H. reflexivity.
Qed.

Lemma rev_string_involutive (s : string) : rev_string (rev_string s) = s.
Proof.
  unfold rev_string.
  rewrite list_ascii_of_string_of_list_ascii, rev_involutive.
  apply string_of_list_ascii_of_string.
Qed.

Lemma strip_edges_ok (s : string) :
  head_ok s = true -> head_ok (rev_string s) = true -> strip s = s.
Proof.
  intros H1 H2. unfold strip.
  rewrite (lstrip_head_ok s H1), (lstrip_head_ok _ H2). apply rev_string_involutive.
Qed.

Lemma partition_app (sep : ascii) (t s : string) :
  contains_char sep t = false ->
  partition sep (t ++ s) = (t ++ fst (partition sep s), snd (partition sep s)).
Proof.
  induction t as [|c t IH]; cbn [append partition contains_char].
  - destruct (partition sep s); reflexivity.
  - intros H. apply orb_false_iff in H as [H1 H2].
    rewrite Ascii.eqb_sym, H1, (IH H2). reflexivity.
Qed.

Lemma partition_hit (sep : ascii) (t tail : string) :
  contains_char sep t = false -> partition sep (t ++ String sep tail) = (t, tail).
Proof.
  intros H. rewrite (partition_app _ _ _ H). cbn [partition].
  rewrite Ascii.eqb_refl. cbn [fst snd]. rewrite string_app_nil_r. reflexivity.
Qed.

Lemma partition_miss (sep : ascii) (t : string) :
  contains_char sep t = false -> partition sep t = (t, "").
Proof.
  intros H. rewrite <- (string_app_nil_r t), (partition_app _ _ _ H). reflexivity.
Qed.

Lemma forallb_contains_char (f : ascii -> bool) (c : ascii) (t : string) :
  forallb f (list_ascii_of_string t) = true -> f c = false -> contains_char c t = false.
Proof.
  intros H Hc. induction t as [|d t IH]; cbn [contains_char]; [reflexivity|].
  cbn [list_ascii_of_string forallb] in H. apply andb_true_iff in H as [Hd H].
  rewrite (IH H), orb_false_r. apply Ascii.eqb_neq. intros <-. congruence.
Qed.

Lemma bare_token_chars (t : string) :
  bare_token t = true ->
  contains_char " " t = false /\ contains_char dquote t = false.
Proof.
  unfold bare_token. intros H. apply andb_true_iff in H as [_ H]. split.
  - apply (forallb_contains_char _ _ _ H). reflexivity.
  - apply (forallb_contains_char _ _ _ H). cbn. rewrite andb_false_r. reflexivity.
Qed.

Lemma render_token_edges (t : string) :
  head_ok (render_token t) = true /\ head_ok (rev_string (render_token t)) = true.
Proof.
  unfold render_token. destruct (bare_token t) eqn:Eb.
  - unfold bare_token in Eb. apply andb_true_iff in Eb as [Eh Hall].
    assert (Hin : forall c, In c (list_ascii_of_string t) -> is_space c = false).
    { intros c Hc. rewrite forallb_forall in Hall. specialize (Hall c Hc).
      apply andb_true_iff in Hall as [Hall _].
      apply andb_true_iff in Hall as [H _]. apply negb_true_iff, H. }
    destruct t as [|c r]; [discriminate Eh|]. split.
    + cbn. rewrite (Hin c); [reflexivity|left; reflexivity].
    + unfold rev_string.
      destruct (rev (list_ascii_of_string (String c r))) as [|d l] eqn:Er.
      * apply (f_equal (@length ascii)) in Er. rewrite length_rev in Er. discriminate.
      * cbn. rewrite (Hin d); [reflexivity|]. apply in_rev. rewrite Er. left. reflexivity.
  - split; [reflexivity|].
    change (String dquote (t ++ String dquote "")) with (String dquote t ++ String dquote "").
    rewrite rev_string_app. reflexivity.
Qed.

Lemma render_tokens_cons (t : string) (r : list string) :
  render_tokens (t :: r)
  = render_token t ++ match r with [] => "" | _ => " " ++ render_tokens r end.
Proof. destruct r; [symmetry; apply string_app_nil_r|reflexivity]. Qed.

Lemma render_tokens_edges (ts : list string) :
  ts <> [] ->
  head_ok (render_tokens ts) = true /\ head_ok (rev_string (render_tokens ts)) = true.
Proof.
  induction ts as [|t r IH]; intros Hne; [contradiction|].
  destruct (render_token_edges t) as [H1 H2].
  destruct r as [|t' r'].
  - split; assumption.
  - destruct IH as [_ H4]; [discriminate|].
    rewrite render_tokens_cons. split; [apply head_ok_app, H1|].
    rewrite !rev_string_app. apply head_ok_app, head_ok_app, H4.
Qed.

Lemma render_tokens_nonempty (ts : list string) : ts <> [] -> render_tokens ts <> "".
Proof.
  intros Hne E. destruct (render_tokens_edges ts Hne) as [H _]. rewrite E in H. discriminate.
Qed.

(** An iteration only looks at the stripped line. *)
Lemma parse_tokens_fuel_strip (f : nat) (s s' : string) :
  s <> "" -> s' <> "" -> strip s = strip s' ->
  parse_tokens_fuel (S f) s = parse_tokens_fuel (S f) s'.
Proof.
  intros H1 H2 E. cbn [parse_tokens_fuel].
  apply String.eqb_neq in H1, H2. rewrite H1, H2, E. reflexivity.
Qed.

Lemma parse_render_fuel (ts : list string) :
  Forall (fun t => contains_char dquote t = false) ts ->
  forall f, length ts < f -> parse_tokens_fuel f (render_tokens ts) = (ts, PTOk).
Proof.
  induction ts as [|t r IH]; intros Hok f Hf.
  - destruct f as [|f]; [inversion Hf|]. reflexivity.
  - inversion Hok as [|? ? Ht Hr]; subst.
    destruct f as [|f]; [inversion Hf|]. cbn [length] in Hf.
    set (tail := match r with [] => "" | _ => " " ++ render_tokens r end).
    assert (Htail : parse_tokens_fuel f tail = (r, PTOk)).
    { destruct r as [|t' r'].
      - destruct f; [lia|]. reflexivity.
      - destruct f as [|f]; [lia|].
        assert (Hne : render_tokens (t' :: r') <> "") by (apply render_tokens_nonempty; discriminate).
        destruct (render_tokens_edges (t' :: r')) as [E1 E2]; [discriminate|].
        unfold tail. rewrite (parse_tokens_fuel_strip f _ (render_tokens (t' :: r'))).
        + apply IH; [exact Hr|lia].
        + discriminate.
        + exact Hne.
        + change (" " ++ render_tokens (t' :: r')) with (String " " (render_tokens (t' :: r'))).
          unfold strip. cbn [lstrip]. replace (is_space " ") with true by reflexivity.
          reflexivity. }
    assert (Hline : render_tokens (t :: r) <> "") by (apply render_tokens_nonempty; discriminate).
    destruct (render_tokens_edges (t :: r)) as [E1 E2]; [discriminate|].
    cbn [parse_tokens_fuel]. apply String.eqb_neq in Hline. rewrite Hline.
    rewrite (strip_edges_ok _ E1 E2), render_tokens_cons. fold tail.
    unfold render_token. destruct (bare_token t) eqn:Eb.
    + destruct (bare_token_chars t Eb) as [Hsp Hdq].
      destruct t as [|c t0]; [discriminate|].
      unfold bare_token in Eb. cbn [andb] in Eb.
      destruct (Ascii.eqb c dquote) eqn:Ed; [discriminate|].
      destruct (Ascii.eqb c squote) eqn:Es; [discriminate|].
      destruct (Ascii.eqb c "#") eqn:Eh; [discriminate|].
      unfold startswith. cbn [String.prefix append].
      destruct (ascii_dec "#" c) as [<-|_]; [discriminate|].
      rewrite Ed, Es.
      change (String c (t0 ++ tail)) with (String c t0 ++ tail).
      destruct r as [|t' r'].
      * unfold tail in *. rewrite string_app_nil_r, (partition_miss _ _ Hsp), Hdq.
        rewrite Htail. reflexivity.
      * unfold tail in *. change (" " ++ render_tokens (t' :: r')) with (String " " (render_tokens (t' :: r'))) in *. rewrite (partition_hit _ _ _ Hsp), Hdq, (IH Hr f) by lia. reflexivity.
    + unfold startswith. cbn [String.prefix append].
      destruct (ascii_dec "#" dquote) as [E|_]; [discriminate|].
      replace (Ascii.eqb dquote dquote) with true by (symmetry; apply Ascii.eqb_refl).
      rewrite <- string_app_assoc. cbn [append].
      rewrite (partition_hit _ _ _ Ht), Htail. reflexivity.
Qed.

(** Tokens without a double quote, written as a line of the task file
    (bare only when every character is ASCII and no quoting is needed,
    else in double quotes), are read back by [parse_tokens] one for one. *)
Theorem parse_tokens_render_round_trip (ts : list string)
    (Hok : Forall (fun t => contains_char dquote t = false) ts) :
  parse_tokens (render_tokens ts) = (ts, PTOk).
Proof.
  apply parse_render_fuel; [exact Hok|].
  enough (length ts <= String.length (render_tokens ts)) by lia.
  clear Hok. induction ts as [|t r IH]; [simpl; lia|].
  rewrite render_tokens_cons, string_app_length.
  assert (1 <= String.length (render_token t)).
  { destruct (render_token_edges t) as [H _]. destruct (render_token t); [discriminate|simpl; lia]. }
  destruct r as [|t' r']; simpl in *; lia.
Qed.

Lemma parse_tokens_render_round_trip_witness :
  parse_tokens (render_tokens ["a.mp4+b.mp4"; "my talk #1"; "1:00"; "-";
                               "{'privacy': 'unlisted'}"])
  = (["a.mp4+b.mp4"; "my talk #1"; "1:00"; "-"; "{'privacy': 'unlisted'}"], PTOk).
Proof.
  apply parse_tokens_render_round_trip.
  repeat constructor.
Defined.

(** ** Zero bounds *)

Lemma gbind_fst_prefix {A B} (m : G A) (k : A -> G B) :
  exists t, fst (gbind m k) = (fst m ++ t)%list.
Proof.
  destruct m as [acts [e|a]]; simpl.
  - exists []. rewrite app_nil_r. reflexivity.
  - destruct (k a). eexists. reflexivity.
Qed.

Lemma gbind_err {A B} (acts : list action) (e : exn) (k : A -> G B) :
  gbind (acts, inl e) k = (acts, inl e).
Proof. reflexivity. Qed.

Lemma segment_loop_app (input0 base ext : string) (pre : list Segment) :
  Forall seg_valid pre ->
  forall n rest files opts, exists acts files' opts',
    segment_loop input0 base ext n (pre ++ rest) files opts
    = ((acts ++ fst (segment_loop input0 base ext (n + length pre) rest files' opts'))%list,
       snd (segment_loop input0 base ext (n + length pre) rest files' opts')).
Proof.
  induction pre as [|s pre IH]; intros Hv n rest files opts.
  - exists [], files, opts. rewrite Nat.add_0_r. cbn [List.app].
    destruct (segment_loop input0 base ext n rest files opts). reflexivity.
  - inversion Hv as [|? ? Hs Hv']. subst.
    destruct (segment_opts_valid s Hs) as [o1 Eo].
    cbn [app segment_loop]. unfold register. rewrite gbind_ok. cbv beta.
    rewrite Eo, gbind_ok. cbv beta. rewrite gbind_ok. cbv beta. unfold yield.
    rewrite gbind_ok. cbv beta.
    destruct (IH Hv' (S n) rest
                (files ++ [(base ++ ".segment" ++ fmt_d (Z.of_nat n) ++ ext)%string])%list o1)
      as (acts & files' & opts' & E).
    rewrite E. replace (n + length (s :: pre)) with (S n + length pre) by (simpl; lia).
    eexists (_ :: _ :: _ :: acts)%list, files', opts'. cbn [fst snd List.app]. reflexivity.
Qed.

Lemma segment_loop_cons_ok (input0 base ext : string) (n : nat) (s : Segment)
    (post : list Segment) (files opts o : list string) :
  segment_opts s = ([], inr o) ->
  let fn := (base ++ ".segment" ++ fmt_d (Z.of_nat n) ++ ext)%string in
  segment_loop input0 base ext n (s :: post) files opts
  = (([ARegister fn; ARegister fn;
       AYield (["ffmpeg"; "-i"; input0; "-y"] ++ o ++ ["-c"; "copy"; fn])%list]
      ++ fst (segment_loop input0 base ext (S n) post (files ++ [fn])%list o))%list,
     snd (segment_loop input0 base ext (S n) post (files ++ [fn])%list o)).
Proof.
  intros Eo fn. cbn [segment_loop]. unfold register. rewrite gbind_ok. cbv beta.
  rewrite Eo, gbind_ok. cbv beta. rewrite gbind_ok. cbv beta. unfold yield.
  rewrite gbind_ok. reflexivity.
Qed.

Lemma segment_loop_cons_err (input0 base ext : string) (n : nat) (s : Segment)
    (post : list Segment) (files opts : list string) (e : exn) :
  segment_opts s = ([], inl e) ->
  segment_loop input0 base ext n (s :: post) files opts
  = ([ARegister (base ++ ".segment" ++ fmt_d (Z.of_nat n) ++ ext)%string], inl e).
Proof.
  intros Eo. cbn [segment_loop]. unfold register. rewrite gbind_ok. cbv beta.
  rewrite Eo. reflexivity.
Qed.

Lemma cutvid_commands_fst (find_file : string -> string -> string) (rnd : string)
    (abspath : string -> string) (vt : VideoTask) (indir outdir : string) :
  exists t, cutvid_commands find_file rnd abspath vt indir outdir
            = (fst (cutvid_try find_file rnd abspath vt indir outdir) ++ t)%list.
Proof.
  unfold cutvid_commands. destruct (cutvid_try _ _ _ _ _ _). eexists. reflexivity.
Qed.

(** In the multi-segment path, the trace up to the [segments] loop, and
    the loop over the segments before [s], run without an exception. *)
Lemma cutvid_try_multi_split (find_file : string -> string -> string) (rnd : string)
    (abspath : string -> string) (vt : VideoTask) (indir outdir : string)
    (pre post : list Segment) (s : Segment)
    (Hseg : segments vt = (pre ++ s :: post)%list) (Hlen : 1 < length (segments vt))
    (Hins : input_files vt <> []) (Hpre : Forall seg_valid pre) :
  exists a1 files opts K,
    cutvid_try find_file rnd abspath vt indir outdir
    = gbind ((a1 ++ fst (segment_loop (hd "" (map (find_file indir) (input_files vt)))
                           (out_path vt outdir) (splitext_ext (output_file vt))
                           (length pre) (s :: post) files opts))%list,
             snd (segment_loop (hd "" (map (find_file indir) (input_files vt)))
                    (out_path vt outdir) (splitext_ext (output_file vt))
                    (length pre) (s :: post) files opts)) K.
Proof.
  unfold cutvid_try. cbv zeta.
  rewrite (proj2 (Nat.ltb_lt _ _) Hlen).
  match goal with |- context [gbind (if Nat.ltb 1 ?l then ?x else ?y) _] =>
    assert (E1 : exists a1 v1, (if Nat.ltb 1 l then x else y) = (a1, inr v1));
    [| destruct E1 as (a1 & v1 & E1); rewrite E1 ] end.
  { destruct (input_files vt) as [|i0 [|i1 r]]; [congruence| |]; cbn; do 2 eexists; reflexivity. }
  rewrite gbind_ok. cbv beta. rewrite Hseg.
  destruct (segment_loop_app (hd "" (map (find_file indir) (input_files vt)))
              (out_path vt outdir) (splitext_ext (output_file vt)) pre Hpre 0 (s :: post) [] [])
    as (acts & files & opts & E2).
  rewrite E2. cbn [Nat.add].
  exists (a1 ++ acts)%list, files, opts.
  match goal with |- context [gbind (_, snd ?R) ?K] => exists K end.
  destruct (segment_loop _ _ _ (length pre) (s :: post) files opts) as [acts2 r].
  destruct r as [e|v]; cbn [gbind fst snd].
  - rewrite app_assoc. reflexivity.
  - destruct v as [sf fo].
    destruct (gbind (concat_cmd sf (part_path vt outdir)) _).
    cbn [fst snd]. rewrite !app_assoc. reflexivity.
Qed.

(** C6 (amended): in the single-segment paths a start of 0 gives the
    same generator trace as an absent start, and an end of 0 the same as
    an absent end.  In the multi-segment path the bounds are compared
    against [None]: the extraction of a segment with start 0 carries
    [-ss 0]; that of a segment without start and with end 0 carries
    [-t 0]; and a segment with a non-negative start and end 0 fails the
    assertion [end > start], so the generator raises [AssertionError]
    (after its [finally] clause). *)
Theorem C6_zero_bounds_by_path (find_file : string -> string -> string) (rnd : string)
    (abspath : string -> string) (vt : VideoTask) (indir outdir : string) :
  (forall st en, segments vt = [mkSegment st en] ->
     (st = Some 0%Z ->
        cutvid_commands find_file rnd abspath vt indir outdir
        = cutvid_commands find_file rnd abspath (set_segments vt [mkSegment None en])
            indir outdir)
     /\ (en = Some 0%Z ->
        cutvid_commands find_file rnd abspath vt indir outdir
        = cutvid_commands find_file rnd abspath (set_segments vt [mkSegment st None])
            indir outdir))
  /\ (forall pre s post,
        segments vt = (pre ++ s :: post)%list -> 1 < length (segments vt) ->
        input_files vt <> [] -> Forall seg_valid pre ->
        let i0 := hd "" (map (find_file indir) (input_files vt)) in
        let fn := (out_path vt outdir ++ ".segment" ++ fmt_d (Z.of_nat (length pre))
                   ++ splitext_ext (output_file vt))%string in
        (start s = Some 0%Z -> seg_valid s ->
           exists p q,
             yields (cutvid_commands find_file rnd abspath vt indir outdir)
             = (p ++ (["ffmpeg"; "-i"; i0; "-y"; "-ss"; "0"]
                      ++ match end_ s with Some e => ["-t"; fmt_d e] | None => [] end
                      ++ ["-c"; "copy"; fn]) :: q)%list)
        /\ (start s = None -> end_ s = Some 0%Z ->
           exists p q,
             yields (cutvid_commands find_file rnd abspath vt indir outdir)
             = (p ++ ["ffmpeg"; "-i"; i0; "-y"; "-t"; "0"; "-c"; "copy"; fn] :: q)%list)
        /\ (forall st, start s = Some st -> (0 <= st)%Z -> end_ s = Some 0%Z ->
           exists acts,
             cutvid_commands find_file rnd abspath vt indir outdir
             = (acts ++ [AFinally; ARaise AssertionError])%list)).
Proof.
  split.
  { intros st en Hseg.
    destruct vt as [ins out desc segs boost priv up]; simpl in Hseg; subst segs.
    split; intros ->; reflexivity. }
  intros pre s post Hseg Hlen Hins Hpre i0 fn.
  destruct (cutvid_try_multi_split find_file rnd abspath vt indir outdir pre post s
              Hseg Hlen Hins Hpre) as (a1 & files & opts & K & Etry).
  assert (Hyield : forall o, segment_opts s = ([], inr o) ->
            exists p q,
              yields (cutvid_commands find_file rnd abspath vt indir outdir)
              = (p ++ (["ffmpeg"; "-i"; i0; "-y"] ++ o ++ ["-c"; "copy"; fn]) :: q)%list).
  { intros o Eo. destruct (cutvid_commands_fst find_file rnd abspath vt indir outdir) as [t Et].
    rewrite Et, Etry.
    match goal with |- context [fst (gbind ?m ?k)] =>
      destruct (gbind_fst_prefix m k) as [t' Et'] end.
    rewrite Et'. cbn [fst]. rewrite (segment_loop_cons_ok _ _ _ _ _ _ _ _ _ Eo). cbn [fst].
    rewrite !yields_app. cbn [yields List.app].
    eexists (yields a1)%list, _. rewrite <- !app_assoc. reflexivity. }
  split; [|split].
  - intros Hst Hv.
    apply (Hyield (["-ss"; "0"] ++ match end_ s with Some e => ["-t"; fmt_d e] | None => [] end)%list).
    unfold seg_valid in Hv. unfold segment_opts.
    rewrite Hst in Hv |- *. destruct (end_ s) as [e|].
    + rewrite (proj2 (Z.gtb_lt e 0) Hv). cbn. rewrite Z.sub_0_r. reflexivity.
    + reflexivity.
  - intros Hst Hen. apply (Hyield ["-t"; "0"]). unfold segment_opts. rewrite Hst, Hen. reflexivity.
  - intros st Hst Hnn Hen.
    assert (Eo : segment_opts s = ([], inl AssertionError)).
    { unfold segment_opts. rewrite Hst, Hen.
      replace (Z.gtb 0 st) with false; [reflexivity|].
      symmetry. rewrite Z.gtb_ltb. apply Z.ltb_ge. exact Hnn. }
    unfold cutvid_commands. rewrite Etry, (segment_loop_cons_err _ _ _ _ _ _ _ _ _ Eo).
    cbn [fst snd]. rewrite gbind_err.
    eexists. reflexivity.
Qed.

Lemma C6_zero_bounds_by_path_witness :
  (exists p q,
     yields (cutvid_commands ex_find ex_rnd ex_abspath
               (ex_task ["a.mp4"] [mkSegment (Some 0%Z) (Some 5%Z); mkSegment None (Some 7%Z)] JNull)
               "in" "out")
     = (p ++ ["ffmpeg"; "-i"; "in/a.mp4"; "-y"; "-ss"; "0"; "-t"; "5"; "-c"; "copy";
              "out/talk.mp4.segment0.mp4"] :: q)%list)
  /\ (exists acts,
     cutvid_commands ex_find ex_rnd ex_abspath
       (ex_task ["a.mp4"] [mkSegment None (Some 7%Z); mkSegment (Some 3%Z) (Some 0%Z)] JNull)
       "in" "out"
     = (acts ++ [AFinally; ARaise AssertionError])%list).
Proof.
  split.
  - apply (proj1 (proj2 (C6_zero_bounds_by_path ex_find ex_rnd ex_abspath
             (ex_task ["a.mp4"] [mkSegment (Some 0%Z) (Some 5%Z); mkSegment None (Some 7%Z)] JNull)
             "in" "out") [] (mkSegment (Some 0%Z) (Some 5%Z)) [mkSegment None (Some 7%Z)]
             eq_refl ltac:(simpl; lia) ltac:(discriminate) (Forall_nil _))).
    + reflexivity.
    + unfold seg_valid. cbn. lia.
  - apply (proj2 (proj2 (proj2 (C6_zero_bounds_by_path ex_find ex_rnd ex_abspath
             (ex_task ["a.mp4"] [mkSegment None (Some 7%Z); mkSegment (Some 3%Z) (Some 0%Z)] JNull)
             "in" "out") [mkSegment None (Some 7%Z)] (mkSegment (Some 3%Z) (Some 0%Z)) []
             eq_refl ltac:(simpl; lia) ltac:(discriminate) ltac:(repeat constructor)))
             3%Z).
    + reflexivity.
    + lia.
    + reflexivity.
Defined.
